(** * go-tetris: the game-state engine, embedded and verified

    A shallow embedding of the Go sources of the terminal tetris clone:

    - [tetris/piece.go]: the [Bag] randomizer, the [Piece] type with its
      rotation methods and the catalog [tetrisPieces];
    - the game file of package [tetris]: [Game], [NewGame], [startTicker],
      the event dispatch of [Start], [GeneratePiece], [anchor], [Move],
      [QuickDrop], [Rotate] and [PauseToggle].

    Conventions of the embedding.

    - Go's [int] is modelled by [Z].  Every quantity of the program (grid
      coordinates, rotation indices, the score) stays far below the range
      of a machine word, so no wrap-around is written out.  Go's [%] is
      the truncated remainder [Z.rem] and Go's [/] is [Z.quot].
    - A Go pointer [*Piece] into the slice [game.pieces] is the index of
      the slot it points to: the pieces handed out by [GeneratePiece] are
      aliases of the catalog slots, and a method called through such a
      pointer updates the slot.
    - A computation that panics in Go (index out of range, division by
      zero) or that does not return is [None].
    - The global random source of [math/rand] is an arbitrary function
      [entropy] giving the raw outcome of the k-th call; [rand.Intn n]
      reduces it modulo [n].
    - Drawing to the terminal is outside the model, but for the digits
      of the score, which are modelled as the list of the calls that
      draw them. *)

From Stdlib Require Import String ZArith List Lia Bool Permutation PeanoNat.
Import ListNotations.
Local Open Scope Z_scope.

(** ** A small error monad *)

Definition bind {A B : Type} (m : option A) (f : A -> option B) : option B :=
  match m with
  | Some a => f a
  | None => None
  end.

Notation "'do' v <- m ; k" := (bind m (fun v => k))
  (at level 10, v name, m at level 100, k at level 200, only parsing).
Notation "'do' ' pat <- m ; k" :=
  (bind m (fun v => match v with pat => k end))
  (at level 10, pat pattern, m at level 100, k at level 200, only parsing).

(** ** Slices *)

(** [l[i]] for a Go [int] index: a panic when [i] is out of range. *)
Definition index {A : Type} (l : list A) (i : Z) : option A :=
  if i <? 0 then None else nth_error l (Z.to_nat i).

(** The slice [l] after the assignment [l[i] = v] at a valid index. *)
Fixpoint update {A : Type} (l : list A) (i : nat) (v : A) : list A :=
  match l, i with
  | [], _ => []
  | _ :: t, O => v :: t
  | h :: t, S i' => h :: update t i' v
  end.

(** [len(l)] as a Go [int]. *)
Definition len {A : Type} (l : list A) : Z := Z.of_nat (length l).

(** ** Geometry *)

(** The type [Vector] is used by the game file as [Vector{x, y}] with
    integer fields [x] and [y] and a method [plus]; the spec gives it as
    an integer pair with component-wise addition. *)
Record Vector : Set := mkVector { x : Z; y : Z }.

(** Modelled from the spec: [Vector.plus] is declared in the board file,
    which is not among the sources; "arithmetic is component-wise
    addition". *)
Definition plus (a b : Vector) : Vector :=
  mkVector (x a + x b) (y a + y b).

(** ** Piece catalog ([tetris/piece.go]) *)

(** [termbox.Attribute]: the colour constants of the terminal library. *)
Inductive Attribute : Set :=
| ColorDefault | ColorBlack | ColorRed | ColorGreen | ColorYellow
| ColorBlue | ColorMagenta | ColorCyan | ColorWhite.

Definition PieceInstance : Set := list Vector.

Record Piece : Set := mkPiece {
  name : string;
  rotations : list PieceInstance;
  currentRotation : Z;
  initialLocation : Vector;
  color : Attribute
}.

Definition setRotation (p : Piece) (r : Z) : Piece :=
  mkPiece (name p) (rotations p) r (initialLocation p) (color p).

(** [func (p *Piece) instance() PieceInstance] *)
Definition instance (p : Piece) : option PieceInstance :=
  index (rotations p) (currentRotation p).

(** [func (p *Piece) rotate()]: the remainder by [len(p.rotations)] panics
    when the piece has no rotation. *)
Definition rotate (p : Piece) : option Piece :=
  let n := len (rotations p) in
  if n =? 0 then None
  else Some (setRotation p (Z.rem (currentRotation p + 1) n)).

(** [func (p *Piece) unrotate()] *)
Definition unrotate (p : Piece) : option Piece :=
  let n := len (rotations p) in
  if n =? 0 then None
  else
    let r := Z.rem (currentRotation p - 1) n in
    Some (setRotation p (if r <? 0 then r + n else r)).

(** [func (p *Piece) dblrotate()] *)
Definition dblrotate (p : Piece) : option Piece :=
  let n := len (rotations p) in
  if n =? 0 then None
  else
    let r := Z.rem (currentRotation p + 2) n in
    Some (setRotation p (if r <? 0 then r + n else r)).

Definition V (a b : Z) : Vector := mkVector a b.

(** [func tetrisPieces() []Piece] *)
Definition tetrisPieces : list Piece :=
  [ mkPiece "O"
      [ [V 0 0; V 1 0; V 0 1; V 1 1] ]
      0 (V 4 0) ColorYellow;
    mkPiece "Z"
      [ [V 0 0; V 1 0; V 1 1; V 2 1];
        [V 1 0; V 0 1; V 1 1; V 0 2] ]
      0 (V 3 0) ColorRed;
    mkPiece "S"
      [ [V 1 0; V 2 0; V 0 1; V 1 1];
        [V 0 0; V 0 1; V 1 1; V 1 2] ]
      0 (V 3 0) ColorGreen;
    mkPiece "T"
      [ [V 0 0; V 1 0; V 2 0; V 1 1];
        [V 1 0; V 0 1; V 1 1; V 1 2];
        [V 1 0; V 0 1; V 1 1; V 2 1];
        [V 0 0; V 0 1; V 1 1; V 0 2] ]
      0 (V 3 0) ColorMagenta;
    mkPiece "L"
      [ [V 0 1; V 1 1; V 2 1; V 0 2];
        [V 0 0; V 1 0; V 1 1; V 1 2];
        [V 2 0; V 0 1; V 1 1; V 2 1];
        [V 1 0; V 1 1; V 1 2; V 2 2] ]
      0 (V 3 (-1)) ColorWhite;
    mkPiece "J"
      [ [V 0 1; V 1 1; V 2 1; V 2 2];
        [V 1 0; V 1 1; V 1 2; V 0 2];
        [V 0 1; V 1 1; V 2 1; V 0 0];
        [V 1 0; V 2 0; V 1 1; V 1 2] ]
      0 (V 3 (-1)) ColorBlue;
    mkPiece "I"
      [ [V 0 1; V 1 1; V 2 1; V 3 1];
        [V 1 0; V 1 1; V 1 2; V 1 3] ]
      0 (V 3 (-1)) ColorCyan ].

(** ** The bag randomizer ([tetris/piece.go]) *)

Module Supply.

Record Bag : Set := mkBag {
  pieceNumber : Z;
  pieces : list Z;
  bagNumber : Z
}.

(** The closure handed to [rand.Shuffle]:
    [b.pieces[i], b.pieces[j] = b.pieces[j], b.pieces[i]]. *)
Definition swap (i j : nat) (l : list Z) : option (list Z) :=
  do a <- nth_error l i;
  do b <- nth_error l j;
  Some (update (update l i b) j a).

(** [rand.Shuffle(n, swap)] runs [i] from [n-1] down to [1] and swaps
    slot [i] with a random slot [j] of [0..i].  [rnd i] is the raw
    outcome of the random source at step [i]. *)
Fixpoint shuffleFrom (rnd : nat -> nat) (i : nat) (l : list Z)
  : option (list Z) :=
  match i with
  | O => Some l
  | S i' =>
      do l' <- swap i (rnd i mod (S i)) l;
      shuffleFrom rnd i' l'
  end.

(** [func (b *Bag) shuffle()] *)
Definition shuffle (rnd : nat -> nat) (b : Bag) : option Bag :=
  let fresh := [0; 1; 2; 3; 4; 5; 6] in
  do l <- shuffleFrom rnd (length fresh - 1) fresh;
  Some (mkBag (pieceNumber b) l (bagNumber b)).

(** [func (b *Bag) initialize()] *)
Definition initialize (rnd : nat -> nat) (b : Bag) : option Bag :=
  shuffle rnd (mkBag 6 (pieces b) (bagNumber b)).

(** [func (b *Bag) getPiece() (retPiece int)]; [rnd] is what the random
    source yields should this call reshuffle. *)
Definition getPiece (rnd : nat -> nat) (b : Bag) : option (Z * Bag) :=
  do b1 <- (if pieceNumber b <? 0
            then do b' <- initialize rnd b;
                 Some (mkBag (pieceNumber b') (pieces b') (bagNumber b' + 1))
            else Some b);
  do retPiece <- index (pieces b1) (pieceNumber b1);
  Some (retPiece, mkBag (pieceNumber b1 - 1) (pieces b1) (bagNumber b1)).

(** Consecutive draws, one random outcome per call. *)
Fixpoint draws (rnds : list (nat -> nat)) (b : Bag)
  : option (list Z * Bag) :=
  match rnds with
  | [] => Some ([], b)
  | rnd :: rest =>
      do '(k, b1) <- getPiece rnd b;
      do '(ks, b2) <- draws rest b1;
      Some (k :: ks, b2)
  end.

End Supply.

(** ** The board *)

(** The board file is not among the sources.  The game file fixes its
    interface: a [Board] has the fields [cells] (indexed by a [Vector],
    holding a [termbox.Attribute]), [currentPiece] (a [*Piece]) and
    [currentPosition], and the methods [moveIfPossible],
    [currentPieceInCollision], [mergeCurrentPiece], [clearedRows] and
    [clearRows]; the constants [width], [height] and [initialX] are
    declared there too and are parameters below. *)

(** Modelled from the spec: the cells of the grid are declared in the
    board file, which is not among the sources; "each cell is either
    empty or holds a settled color tag".  A grid is the list of its rows,
    top to bottom. *)
Definition Row : Set := list (option Attribute).
Definition Grid : Set := list Row.

(** Modelled from the spec: the type [Board] is declared in the board
    file, which is not among the sources; a "fixed width x height grid",
    "plus the current FallingPiece and its position".  The fields bear
    the names the game file uses; [currentPiece] is a [*Piece]. *)
Record Board : Set := mkBoard {
  cells : Grid;
  currentPiece : nat;
  currentPosition : Vector
}.

(** Modelled from the spec: the lookup [board.cells[v]] is on a field of
    the board file, which is not among the sources; the content of the
    cell at [v], [None] for an empty cell and for a position outside the
    grid. *)
Definition cellAt (g : Grid) (v : Vector) : option Attribute :=
  do r <- index g (y v);
  do c <- index r (x v);
  c.

(** Modelled from the spec: whether the cell at [v] "holds a settled
    color tag"; the test belongs to the board file, which is not among
    the sources. *)
Definition settled (g : Grid) (v : Vector) : bool :=
  match cellAt g v with
  | Some _ => true
  | None => false
  end.

(** Modelled from the spec: the store [board.cells[v] = c] is on a field
    of the board file, which is not among the sources; the grid after
    the cell at [v] is given the colour [c].  The grid is of fixed size:
    a position outside it is not stored. *)
Definition setCell (g : Grid) (v : Vector) (c : Attribute) : Grid :=
  match index g (y v) with
  | Some r =>
      if (0 <=? x v) && (x v <? len r)
      then update g (Z.to_nat (y v)) (update r (Z.to_nat (x v)) (Some c))
      else g
  | None => g
  end.

(** Modelled from the spec: the test of a full row belongs to the board
    file, which is not among the sources; "a row qualifies if every cell
    in it is settled (non-empty)". *)
Definition rowFull (r : Row) : bool :=
  forallb (fun c => match c with Some _ => true | None => false end) r.

(** Modelled from the spec: the scan of [clearedRows], of the board
    file, which is not among the sources; the indices of the full rows
    of [g], where the first row of [g] has index [i], "top-to-bottom",
    so "in ascending row-index order". *)
Fixpoint fullRowsFrom (i : nat) (g : Grid) : list nat :=
  match g with
  | [] => []
  | r :: g' =>
      if rowFull r then i :: fullRowsFrom (S i) g'
      else fullRowsFrom (S i) g'
  end.

Module Event.
(** [type GameEvent int] *)
Inductive GameEvent : Set :=
| MoveLeft | MoveRight | MoveDown | Rotate | QuickDrop | Pause | Quit
| Redraw.
End Event.

(** [type Direction int] *)
Inductive Direction : Set := Up | Down | Left | Right.

(** [type Game struct]: [board] is held by value, the two [*Piece] fields
    are indices into [pieces], and [ticker] is the period of the running
    ticker, [None] once stopped.  [randCalls] counts the calls made to
    the global random source. *)
Record Game : Set := mkGame {
  board : Board;
  nextPiece : nat;
  pieces : list Piece;
  paused : bool;
  over : bool;
  dropDelayMillis : Z;
  ticker : option Z;
  score : Z;
  randCalls : nat
}.

Definition setBoard (g : Game) (b : Board) : Game :=
  mkGame b (nextPiece g) (pieces g) (paused g) (over g) (dropDelayMillis g)
         (ticker g) (score g) (randCalls g).
Definition setNextPiece (g : Game) (k : nat) : Game :=
  mkGame (board g) k (pieces g) (paused g) (over g) (dropDelayMillis g)
         (ticker g) (score g) (randCalls g).
Definition setPieces (g : Game) (ps : list Piece) : Game :=
  mkGame (board g) (nextPiece g) ps (paused g) (over g) (dropDelayMillis g)
         (ticker g) (score g) (randCalls g).
Definition setPaused (g : Game) (v : bool) : Game :=
  mkGame (board g) (nextPiece g) (pieces g) v (over g) (dropDelayMillis g)
         (ticker g) (score g) (randCalls g).
Definition setOver (g : Game) (v : bool) : Game :=
  mkGame (board g) (nextPiece g) (pieces g) (paused g) v (dropDelayMillis g)
         (ticker g) (score g) (randCalls g).
Definition setScore (g : Game) (s : Z) : Game :=
  mkGame (board g) (nextPiece g) (pieces g) (paused g) (over g)
         (dropDelayMillis g) (ticker g) s (randCalls g).

(** A method called through a [*Piece]: the slot [k] of the slice is
    replaced by the outcome of the method. *)
Definition through (ps : list Piece) (k : nat) (m : Piece -> option Piece)
  : option (list Piece) :=
  do p <- nth_error ps k;
  do p' <- m p;
  Some (update ps k p').

(** ** The states the game keeps *)

(** The index of a piece is a valid rotation of it. *)
Definition rotationOK (p : Piece) : Prop :=
  0 <= currentRotation p < len (rotations p).

(** Two pieces that agree on everything but the rotation index. *)
Definition sameKind (p q : Piece) : Prop :=
  name p = name q /\ rotations p = rotations q
  /\ initialLocation p = initialLocation q /\ color p = color q.

(** The slice [game.pieces] is the catalog up to the rotation indices,
    each of which is a valid rotation of its piece. *)
Definition catalogOK (ps : list Piece) : Prop :=
  Forall2 sameKind ps tetrisPieces /\ Forall rotationOK ps.

(** What every catalog entry satisfies: it has a rotation, and each of
    its rotations has a cell at or below the row of its origin. *)
Definition kindCheck (q : Piece) : bool :=
  (0 <? len (rotations q))
  && forallb (fun inst => existsb (fun off => 0 <=? y off) inst) (rotations q).

(** The state the game keeps: the piece slice is the catalog up to valid
    rotation indices, and both piece pointers point into it. *)
Definition gameOK (g : Game) : Prop :=
  catalogOK (pieces g)
  /\ (currentPiece (board g) < 7)%nat
  /\ (nextPiece g < 7)%nat.

(** The award for [n] rows cleared at once. *)
Definition award (n : nat) : Z :=
  match n with
  | O => 0
  | S m => 100 * 2 ^ Z.of_nat m
  end.

Section Engine.

(** The constants [width], [height] and [initialX] of the board file. *)
Variables width height : nat.
Variable initialX : Z.

(** The raw outcomes of the global random source, call by call. *)
Variable entropy : nat -> nat.

(** *** Board operations *)

(** Modelled from the spec: a row of the grid with every cell empty;
    the grid belongs to the board file, which is not among the
    sources. *)
Definition emptyRow : Row := repeat None width.

(** Modelled from the spec: [newBoard] is declared in the board file,
    which is not among the sources; a fixed width x height grid whose
    cells are all empty.  No piece is falling yet: [NewGame] sets the
    piece and its position right away. *)
Definition newBoard : Board :=
  mkBoard (repeat emptyRow height) 0 (V 0 0).

(** Modelled from the spec: [canPlace] is declared in the board file,
    which is not among the sources; "true iff every absolute cell of
    the piece at position+delta under the given rotation index lies
    within grid bounds and does not coincide with a settled cell", where
    "only the lower bound and side bounds and settled-cell overlap are
    checked, not an upper bound". *)
Definition canPlace (ps : list Piece) (b : Board) (delta : Vector) (rot : Z)
  : option bool :=
  do p <- nth_error ps (currentPiece b);
  do inst <- index (rotations p) rot;
  Some (forallb
          (fun off =>
             let c := plus (plus (currentPosition b) delta) off in
             (0 <=? x c) && (x c <? Z.of_nat width)
             && (y c <? Z.of_nat height) && negb (settled (cells b) c))
          inst).

(** Modelled from the spec: [moveIfPossible] is declared in the board
    file, which is not among the sources; "if canPlace(delta,
    currentRotation) holds, commits position += delta and returns true;
    otherwise leaves state unchanged and returns false". *)
Definition moveIfPossible (ps : list Piece) (b : Board) (delta : Vector)
  : option (bool * Board) :=
  do p <- nth_error ps (currentPiece b);
  do ok <- canPlace ps b delta (currentRotation p);
  if ok
  then Some (true, mkBoard (cells b) (currentPiece b)
                           (plus (currentPosition b) delta))
  else Some (false, b).

(** Modelled from the spec: [currentPieceInCollision] is declared in
    the board file, which is not among the sources; "true if the
    piece's cells at its current position/rotation overlap settled
    cells or lie outside horizontal/lower bounds". *)
Definition currentPieceInCollision (ps : list Piece) (b : Board)
  : option bool :=
  do p <- nth_error ps (currentPiece b);
  do ok <- canPlace ps b (V 0 0) (currentRotation p);
  Some (negb ok).

(** Modelled from the spec: [mergeCurrentPiece] is declared in the
    board file, which is not among the sources; "copies the piece's
    currently occupied cells into the settled grid using the piece's
    color tag; does not clear the piece reference". *)
Definition mergeCurrentPiece (ps : list Piece) (b : Board) : option Board :=
  do p <- nth_error ps (currentPiece b);
  do inst <- instance p;
  Some (mkBoard
          (fold_left
             (fun g off => setCell g (plus (currentPosition b) off) (color p))
             inst (cells b))
          (currentPiece b) (currentPosition b)).

(** Modelled from the spec: [clearedRows] is declared in the board
    file, which is not among the sources; "scans rows top-to-bottom; a
    row qualifies if every cell in it is settled.  Returned in
    ascending row-index order". *)
Definition clearedRows (b : Board) : list nat :=
  fullRowsFrom 0 (cells b).

(** Modelled from the spec: one removal of [clearRows], of the board
    file, which is not among the sources; "shifting every row above
    each removed row down by one per removal", an empty row entering at
    the top "to restore the fixed height". *)
Definition removeRow (g : Grid) (i : nat) : Grid :=
  emptyRow :: firstn i g ++ skipn (S i) g.

(** Modelled from the spec: [clearRows] is declared in the board file,
    which is not among the sources; "removes all currently-full rows,
    shifting every row above each removed row down by one per removal",
    the row indices being "computed against the pre-clear grid, not
    recomputed mid-clear". *)
Definition clearRows (b : Board) : Board :=
  mkBoard (fold_left removeRow (clearedRows b) (cells b))
          (currentPiece b) (currentPosition b).

(** Modelled from the spec: the grid the spec gives as equivalent to the
    outcome of [clearRows], "keeping only non-full rows in order and
    prepending enough empty rows at the top to restore the fixed
    height". *)
Definition rebuilt (g : Grid) : Grid :=
  repeat emptyRow (length (filter rowFull g))
  ++ filter (fun r => negb (rowFull r)) g.

(** *** The game *)

(** [func (game *Game) startTicker()] *)
Definition startTicker (g : Game) : Game :=
  let d := 800 - Z.quot (score g) 5 in
  let d := if d <? 200 then 200 else d in
  mkGame (board g) (nextPiece g) (pieces g) (paused g) (over g) d (Some d)
         (score g) (randCalls g).

(** [func (game *Game) stopTicker()] *)
Definition stopTicker (g : Game) : Game :=
  mkGame (board g) (nextPiece g) (pieces g) (paused g) (over g)
         (dropDelayMillis g) None (score g) (randCalls g).

(** [func (game *Game) GeneratePiece() *Piece]: the pointer
    [&game.pieces[rand.Intn(len(game.pieces))]]; [rand.Intn] panics on
    an empty slice. *)
Definition GeneratePiece (g : Game) : option (nat * Game) :=
  let n := length (pieces g) in
  if (n =? 0)%nat then None
  else
    Some ((entropy (randCalls g) mod n)%nat,
          mkGame (board g) (nextPiece g) (pieces g) (paused g) (over g)
                 (dropDelayMillis g) (ticker g) (score g)
                 (S (randCalls g))).

(** [func NewGame() *Game] *)
Definition NewGame : option Game :=
  let g := mkGame newBoard 0 tetrisPieces false false 0 None 0 0 in
  do '(k, g) <- GeneratePiece g;
  let g := setBoard g (mkBoard (cells (board g)) k
                               (currentPosition (board g))) in
  let g := setBoard g (mkBoard (cells (board g)) (currentPiece (board g))
                               (V initialX 0)) in
  do '(k, g) <- GeneratePiece g;
  let g := setNextPiece g k in
  let g := setPaused g false in
  let g := setOver g false in
  let g := setScore g 0 in
  Some (startTicker g).

(** The award of [anchor]:
    [100 * math.Pow(2, float64(len(rowsCleared)-1))] converted to [int].
    A power of two times 100 is exact in floating point, so the value
    is the integer power. *)
Definition points (rowsCleared : list nat) : Z :=
  100 * 2 ^ (len rowsCleared - 1).

(** [func (game *Game) anchor()]; the flicker of the cleared rows only
    draws. *)
Definition anchor (g : Game) : option Game :=
  do b <- mergeCurrentPiece (pieces g) (board g);
  let g := setBoard g b in
  let rowsCleared := clearedRows (board g) in
  let g :=
    if 0 <? len rowsCleared then
      let g := stopTicker g in
      let g := setBoard g (clearRows (board g)) in
      let g := setScore g (score g + points rowsCleared) in
      startTicker g
    else g in
  let g := setBoard g (mkBoard (cells (board g)) (nextPiece g)
                               (currentPosition (board g))) in
  let g := setBoard g (mkBoard (cells (board g)) (currentPiece (board g))
                               (V initialX 0)) in
  do '(k, g) <- GeneratePiece g;
  let g := setNextPiece g k in
  do ps <- through (pieces g) (nextPiece g) (fun p => Some (setRotation p 0));
  let g := setPieces g ps in
  do hit <- currentPieceInCollision (pieces g) (board g);
  Some (if hit then setOver g true else g).

(** [func (game *Game) Move(where Direction)] *)
Definition Move (g : Game) (where_ : Direction) : option Game :=
  let translation :=
    match where_ with
    | Down => V 0 1
    | Left => V (-1) 0
    | Right => V 1 0
    | Up => V 0 0
    end in
  do '(moved, b) <- moveIfPossible (pieces g) (board g) translation;
  let g := setBoard g b in
  match where_, moved with
  | Down, false => anchor g
  | _, _ => Some g
  end.

(** The loop [for game.board.moveIfPossible(Vector{0, 1}) {}] of
    [QuickDrop], with a bound on the number of calls: [None] when the
    bound is reached before a move fails. *)
Fixpoint dropLoop (fuel : nat) (ps : list Piece) (b : Board) : option Board :=
  match fuel with
  | O => None
  | S fuel' =>
      do '(moved, b') <- moveIfPossible ps b (V 0 1);
      if moved then dropLoop fuel' ps b' else Some b'
  end.

(** The bound [QuickDrop] runs the loop with.  A piece that has a cell at
    or below its origin, as every rotation of every piece of the catalog
    has, cannot move down more often than to the last row: the loop
    ends by a failed move before the bound is reached
    ([dropLoop_dropFuel]), and a larger bound gives the same board
    ([dropLoop_more_fuel]). *)
Definition dropFuel (b : Board) : nat :=
  S (Z.to_nat (Z.of_nat height - y (currentPosition b))).

(** [func (game *Game) QuickDrop()] *)
Definition QuickDrop (g : Game) : option Game :=
  do b <- dropLoop (dropFuel (board g)) (pieces g) (board g);
  anchor (setBoard g b).

(** [func (game *Game) Rotate()] *)
Definition Rotate (g : Game) : option Game :=
  let k := currentPiece (board g) in
  do ps <- through (pieces g) k rotate;
  do hit <- currentPieceInCollision ps (board g);
  if hit
  then do ps' <- through ps k unrotate; Some (setPieces g ps')
  else Some (setPieces g ps).

(** Modelled from the spec: the counter-clockwise rotation of the game
    is not among the sources (the game file has [Rotate] only);
    "advance the piece's rotation by -1; if the resulting position
    collides, revert to the prior rotation index".  The step is
    [Piece.unrotate] of the piece file. *)
Definition RotateCCW (g : Game) : option Game :=
  let k := currentPiece (board g) in
  do ps <- through (pieces g) k unrotate;
  do hit <- currentPieceInCollision ps (board g);
  if hit then Some g else Some (setPieces g ps).

(** Modelled from the spec: the half-turn of the game is not among the
    sources; "advance the piece's rotation by +2; if the resulting
    position collides, revert to the prior rotation index".  The step
    is [Piece.dblrotate] of the piece file. *)
Definition Rotate180 (g : Game) : option Game :=
  let k := currentPiece (board g) in
  do ps <- through (pieces g) k dblrotate;
  do hit <- currentPieceInCollision ps (board g);
  if hit then Some g else Some (setPieces g ps).

(** [func (game *Game) PauseToggle()] *)
Definition PauseToggle (g : Game) : Game :=
  let g := if paused g then startTicker g else stopTicker g in
  setPaused g (negb (paused g)).

(** *** The event loop of [Start] *)

(** Where the control of [Start] is: in the main loop, in the final
    loop that waits for [Quit] once the game is over, or returned. *)
Inductive Phase : Set :=
| Running (g : Game)
| GameOver (g : Game)
| Exited (g : Game).

(** The test [if game.over { break gameOver }] closing an iteration. *)
Definition next (g : Game) : Phase :=
  if over g then GameOver g else Running g.

(** One iteration of the main loop on the event [e]. *)
Definition dispatch (e : Event.GameEvent) (g : Game) : option Phase :=
  if paused g then
    match e with
    | Event.Pause => Some (next (PauseToggle g))
    | Event.Quit => Some (Exited g)
    | _ => Some (next g)
    end
  else
    match e with
    | Event.MoveLeft => do g' <- Move g Left; Some (next g')
    | Event.MoveRight => do g' <- Move g Right; Some (next g')
    | Event.MoveDown => do g' <- Move g Down; Some (next g')
    | Event.QuickDrop => do g' <- QuickDrop g; Some (next g')
    | Event.Rotate => do g' <- Rotate g; Some (next g')
    | Event.Pause => Some (next (PauseToggle g))
    | Event.Quit => Some (Exited g)
    | Event.Redraw => Some (next g)
    end.

(** One event taken by [Start]. *)
Definition step (ph : Phase) (e : Event.GameEvent) : option Phase :=
  match ph with
  | Running g => dispatch e g
  | GameOver g =>
      match e with
      | Event.Quit => Some (Exited g)
      | _ => Some (GameOver g)
      end
  | Exited g => Some (Exited g)
  end.

Fixpoint run (ph : Phase) (es : list Event.GameEvent) : option Phase :=
  match es with
  | [] => Some ph
  | e :: es' => do ph' <- step ph e; run ph' es'
  end.

(** [game := tetris.NewGame(); game.Start()] fed the events [es]. *)
Definition play (es : list Event.GameEvent) : option Phase :=
  do g <- NewGame; run (Running g) es.

Definition gameOf (ph : Phase) : Game :=
  match ph with
  | Running g | GameOver g | Exited g => g
  end.

(** Either the score is as it was, or an [anchor] that cleared rows
    has added their award. *)
Definition scored (g g' : Game) : Prop :=
  score g' = score g
  \/ exists g1 b,
       score g1 = score g
       /\ mergeCurrentPiece (pieces g1) (board g1) = Some b
       /\ anchor g1 = Some g'
       /\ (0 < length (clearedRows b))%nat
       /\ score g' = score g + award (length (clearedRows b)).

End Engine.

(** ** The event loop and the bag: shapes *)

(** The main loop runs only while the game is not over, and the final
    loop only once it is. *)
Definition phaseOK (ph : Phase) : Prop :=
  match ph with
  | Running g => over g = false
  | GameOver g => over g = true
  | Exited _ => True
  end.

(** The draws still held by the bag, in the order they come. *)
Definition pending (b : Supply.Bag) : list Z :=
  rev (firstn (Z.to_nat (Supply.pieceNumber b + 1)) (Supply.pieces b)).

Definition allKinds : list Z := [0; 1; 2; 3; 4; 5; 6].

(** The shape of a sequence of draws: from the draws the bag still
    holds, then from fresh bags, each a permutation of the seven
    kinds. *)
Inductive Bagged : list Z -> list Z -> Prop :=
| Bagged_nil (pend : list Z) : Bagged pend []
| Bagged_take (k : Z) (pend ds : list Z) :
    Bagged pend ds -> Bagged (k :: pend) (k :: ds)
| Bagged_fresh (bag ds : list Z) :
    Permutation bag allKinds -> Bagged bag ds -> Bagged [] ds.

(** ** Sample states *)

(** A game in play on a 10 x 18 board: a T piece falling from the top,
    a T piece next, nothing settled. *)
Definition sampleGame (s : Z) : Game :=
  mkGame (mkBoard (repeat (emptyRow 10) 18) 3 (V 4 0)) 3 tetrisPieces
         false false 800 (Some 800) s 2.

(** A 4 x 4 board whose two bottom rows lack their two right cells, with
    an O piece resting in the gap. *)
Definition twoRowsGame : Game :=
  let X := Some ColorRed in
  mkGame (mkBoard [ [None; None; None; None];
                    [None; None; None; None];
                    [X; X; None; None];
                    [X; X; None; None] ] 0 (V 2 2))
         1 tetrisPieces false false 800 (Some 800) 0 2.

Definition twoRowsMerged : Board :=
  let X := Some ColorRed in
  let Y := Some ColorYellow in
  mkBoard [ [None; None; None; None];
            [None; None; None; None];
            [X; X; Y; Y];
            [X; X; Y; Y] ] 0 (V 2 2).

(** The T piece of the catalog. *)
Definition pieceT : Piece :=
  mkPiece "T"
    [ [V 0 0; V 1 0; V 2 0; V 1 1];
      [V 1 0; V 0 1; V 1 1; V 1 2];
      [V 1 0; V 0 1; V 1 1; V 2 1];
      [V 0 0; V 0 1; V 1 1; V 0 2] ]
    0 (V 3 0) ColorMagenta.

(** ** More of the game file: input and the score display *)

From Stdlib Require Import Ascii.

(** [n] calls of a method in a row, stopping at the first panic. *)
Fixpoint times {A : Type} (n : nat) (f : A -> option A) (a : A) : option A :=
  match n with
  | O => Some a
  | S n' => do a' <- f a; times n' f a'
  end.

(** What the game file reads of an event of the terminal library:
    [event.Type], [event.Key] and [event.Ch].  Of the key constants only
    the six the game file names are told apart, and of the event types
    only the three it names; [Ch] is a rune, 0 for a special key. *)
Module Termbox.
Inductive EventType : Set :=
| EventKey | EventResize | EventError | EventOther.
Inductive Key : Set :=
| KeyCtrlC | KeyArrowLeft | KeyArrowUp | KeyArrowRight | KeyArrowDown
| KeySpace | KeyOther.
Record Event : Set := mkEvent { Type_ : EventType; Key_ : Key; Ch : Z }.
End Termbox.

(** The rune of a character literal. *)
Definition rune (c : Ascii.ascii) : Z := Z.of_nat (Ascii.nat_of_ascii c).
Arguments rune c%_char.

(** [func waitForUserEvent() GameEvent], for the event [event] that
    [termbox.PollEvent()] delivers; [panic(event.Err)] is [None]. *)
Definition waitForUserEvent (event : Termbox.Event) : option Event.GameEvent :=
  match Termbox.Type_ event with
  | Termbox.EventKey =>
      if Termbox.Ch event =? 0 then
        match Termbox.Key_ event with
        | Termbox.KeyCtrlC => Some Event.Quit
        | Termbox.KeyArrowLeft => Some Event.MoveLeft
        | Termbox.KeyArrowUp => Some Event.Rotate
        | Termbox.KeyArrowRight => Some Event.MoveRight
        | Termbox.KeyArrowDown => Some Event.MoveDown
        | Termbox.KeySpace => Some Event.QuickDrop
        | Termbox.KeyOther => Some Event.Redraw
        end
      else if Termbox.Ch event =? rune "p" then Some Event.Pause
      else if Termbox.Ch event =? rune "q" then Some Event.Quit
      else if Termbox.Ch event =? rune "h" then Some Event.MoveLeft
      else if Termbox.Ch event =? rune "k" then Some Event.Rotate
      else if Termbox.Ch event =? rune "l" then Some Event.MoveRight
      else if Termbox.Ch event =? rune "j" then Some Event.MoveDown
      else Some Event.Redraw
  | Termbox.EventResize => Some Event.Redraw
  | Termbox.EventError => None
  | Termbox.EventOther => Some Event.Redraw
  end.

(** The loop of [DrawDynamic] that draws the score:
    [[
    for {
        digit := score % 10
        score /= 10
        drawDigitAsAscii(cursor.x, cursor.y, digit)
        cursor = cursor.plus(Vector{-4, 0})
        if score == 0 { break }
    }
    ]]
    as the list of the calls [drawDigitAsAscii(cursor.x, cursor.y, digit)]
    it makes, in order, each as the cursor and the digit; [None] when the
    bound on the number of calls is reached first. *)
Fixpoint scoreLoop (fuel : nat) (score : Z) (cursor : Vector)
  : option (list (Vector * Z)) :=
  match fuel with
  | O => None
  | S fuel' =>
      let digit := Z.rem score 10 in
      let score := Z.quot score 10 in
      let call := (cursor, digit) in
      let cursor := plus cursor (V (-4) 0) in
      if score =? 0 then Some [call]
      else do calls <- scoreLoop fuel' score cursor; Some (call :: calls)
  end.

(** The bound the loop is run with: a division by 10 brings a score
    that is not 0 closer to 0, so the loop ends before the bound is
    reached ([scoreLoop_returns]). *)
Definition scoreFuel (score : Z) : nat := S (Z.to_nat (Z.abs score)).

Section ScoreDisplay.

(** The constants [width], [headerHeight] and [previewHeight] of the
    board and drawing files, which are not among the sources. *)
Variable width : nat.
Variables headerHeight previewHeight : Z.

(** The part of [func (game *Game) DrawDynamic(clearOnly bool)] that
    draws the current score, from the cursor
    [Vector{(width * 2) + 18, headerHeight + previewHeight + 7}]. *)
Definition drawScore (g : Game) : option (list (Vector * Z)) :=
  scoreLoop (scoreFuel (score g)) (score g)
            (V (Z.of_nat width * 2 + 18) (headerHeight + previewHeight + 7)).

End ScoreDisplay.

(** The number a list of digits stands for, least significant first. *)
Fixpoint digitsValue (ds : list Z) : Z :=
  match ds with
  | [] => 0
  | d :: ds' => d + 10 * digitsValue ds'
  end.

(** ** More shapes of states *)

(** The speed curve of the comment of [startTicker]: 800 ms at score 0,
    down to the floor of 200 ms. *)
Definition interval (s : Z) : Z := Z.max 200 (800 - s / 5).

(** The timing state the game keeps: the delay is the one of the score,
    the ticker runs at it unless the game is paused, and the score is a
    sum of awards, so a multiple of 100 that is not negative. *)
Definition tickerOK (g : Game) : Prop :=
  dropDelayMillis g = interval (score g)
  /\ ticker g = (if paused g then None else Some (dropDelayMillis g))
  /\ exists k, 0 <= k /\ score g = 100 * k.

(** The translation [Move] tries for a direction. *)
Definition translationOf (d : Direction) : Vector :=
  match d with
  | Down => V 0 1
  | Left => V (-1) 0
  | Right => V 1 0
  | Up => V 0 0
  end.

(** The lookahead piece is at rotation 0 unless it is the catalog slot
    of the falling piece. *)
Definition nextFresh (g : Game) : Prop :=
  forall q,
    nth_error (pieces g) (nextPiece g) = Some q ->
    nextPiece g <> currentPiece (board g) ->
    currentRotation q = 0.

(** A rotation of a catalog piece: four cells, all different, within the
    4 x 4 box at the origin. *)
Definition vector_eqb (a b : Vector) : bool :=
  (x a =? x b) && (y a =? y b).

Fixpoint distinct (l : list Vector) : bool :=
  match l with
  | [] => true
  | v :: l' => negb (existsb (vector_eqb v) l') && distinct l'
  end.

Definition shapeCheck (inst : PieceInstance) : bool :=
  (length inst =? 4)%nat
  && forallb (fun off => (0 <=? x off) && (x off <? 4)
                         && (0 <=? y off) && (y off <? 4)) inst
  && distinct inst.

(** The slots the swaps of one shuffle of the bag pick, from the swap of
    slot 6 to the swap of slot 1. *)
Definition choices (rnd : nat -> nat) : list nat :=
  map (fun i => (rnd i mod S i)%nat) [6; 5; 4; 3; 2; 1]%nat.

(** The swaps of [rand.Shuffle] with the slots picked given as a list,
    for the slots [i] down to 1. *)
Fixpoint shuffleBy (cs : list nat) (i : nat) (l : list Z) : option (list Z) :=
  match i, cs with
  | O, _ => Some l
  | S i', c :: cs' => do l' <- Supply.swap i c l; shuffleBy cs' i' l'
  | S _, [] => None
  end.

(** The first slot of [l] that holds [v]. *)
Fixpoint slotOf (v : Z) (l : list Z) : option nat :=
  match l with
  | [] => None
  | h :: t => if h =? v then Some O else option_map S (slotOf v t)
  end.

(** The picks that lead from [l] to the shuffled slice [f]: slot [i] is
    left alone once it is swapped, so the pick at [i] is the slot of [l]
    holding what [f] has at [i]. *)
Fixpoint picksOf (f : list Z) (i : nat) (l : list Z) : option (list nat) :=
  match i with
  | O => Some []
  | S i' =>
      do v <- nth_error f i;
      do c <- slotOf v l;
      do l' <- Supply.swap i c l;
      do cs <- picksOf f i' l';
      Some (c :: cs)
  end.

(** Checks over all the picks and all the slices of a shuffle. *)
Fixpoint natsEqb (a b : list nat) : bool :=
  match a, b with
  | [], [] => true
  | h :: t, h' :: t' => (h =? h')%nat && natsEqb t t'
  | _, _ => false
  end.

Fixpoint zsEqb (a b : list Z) : bool :=
  match a, b with
  | [], [] => true
  | h :: t, h' :: t' => (h =? h') && zsEqb t t'
  | _, _ => false
  end.

Fixpoint distinctZ (l : list Z) : bool :=
  match l with
  | [] => true
  | h :: t => negb (existsb (Z.eqb h) t) && distinctZ t
  end.

(** Picks as [rand.Shuffle] makes them: slot [i] is swapped with one of
    the slots 0..i. *)
Definition validPicks (cs : list nat) : bool :=
  match cs with
  | [c6; c5; c4; c3; c2; c1] =>
      ((c6 <? 7) && (c5 <? 6) && (c4 <? 5) && (c3 <? 4) && (c2 <? 3)
       && (c1 <? 2))%nat
  | _ => false
  end.

(** The picks are read back from the slice they lead to. *)
Definition pickCheck (cs : list nat) : bool :=
  match shuffleBy cs 6 allKinds with
  | Some f =>
      match picksOf f 6 allKinds with
      | Some cs' => natsEqb cs cs'
      | None => false
      end
  | None => false
  end.

(** A slice without repetition is reached by the picks read from it. *)
Definition sliceCheck (f : list Z) : bool :=
  if distinctZ f then
    match picksOf f 6 allKinds with
    | Some cs =>
        validPicks cs
        && match shuffleBy cs 6 allKinds with
           | Some f' => zsEqb f f'
           | None => false
           end
    | None => false
    end
  else true.

Definition upto (n : nat) (k : nat -> bool) : bool := forallb k (seq 0 n).

Definition allPicksCheck : bool :=
  upto 7 (fun c6 => upto 6 (fun c5 => upto 5 (fun c4 => upto 4 (fun c3 =>
  upto 3 (fun c2 => upto 2 (fun c1 =>
    pickCheck [c6; c5; c4; c3; c2; c1])))))).

Definition overKinds (k : Z -> bool) : bool := forallb k allKinds.

Definition allSlicesCheck : bool :=
  overKinds (fun a => overKinds (fun b => overKinds (fun c =>
  overKinds (fun d => overKinds (fun e => overKinds (fun g =>
  overKinds (fun h => sliceCheck [a; b; c; d; e; g; h]))))))).

(** * Verification *)

#[local] Arguments Nat.modulo : simpl never.

(** ** Slices *)

Lemma update_length {A : Type} (l : list A) (i : nat) (v : A) :
  length (update l i v) = length l.
Proof.
  revert i; induction l as [|h t IH]; intros [|i]; simpl; auto.
Qed.

Lemma nth_error_update_eq {A : Type} (l : list A) (i : nat) (v : A) :
  (i < length l)%nat -> nth_error (update l i v) i = Some v.
Proof.
  revert i; induction l as [|h t IH]; intros [|i] Hi; simpl in *;
    try lia; auto.
  apply IH; lia.
Qed.

Lemma nth_error_update_neq {A : Type} (l : list A) (i j : nat) (v : A) :
  i <> j -> nth_error (update l i v) j = nth_error l j.
Proof.
  revert i j; induction l as [|h t IH]; intros [|i] [|j] Hij; simpl;
    try congruence; auto.
Qed.

Lemma update_same {A : Type} (l : list A) (i : nat) (v : A) :
  nth_error l i = Some v -> update l i v = l.
Proof.
  revert i; induction l as [|h t IH]; intros [|i] H; simpl in *;
    try congruence.
  f_equal; auto.
Qed.

Lemma update_update {A : Type} (l : list A) (i : nat) (v w : A) :
  update (update l i v) i w = update l i w.
Proof.
  revert i; induction l as [|h t IH]; intros [|i]; simpl; auto.
  f_equal; auto.
Qed.

Lemma index_Some {A : Type} (l : list A) (i : Z) (a : A) :
  index l i = Some a <-> 0 <= i /\ nth_error l (Z.to_nat i) = Some a.
Proof.
  unfold index; destruct (Z.ltb_spec i 0); split; intros; try easy; lia.
Qed.

Lemma index_in_range {A : Type} (l : list A) (i : Z) :
  0 <= i < len l -> exists a, index l i = Some a.
Proof.
  intros [H0 H1]; unfold index, len in *.
  destruct (Z.ltb_spec i 0); try lia.
  destruct (nth_error l (Z.to_nat i)) eqn:E; eauto.
  apply nth_error_None in E; lia.
Qed.

(** ** The board: row clearing *)

Section RowClearing.

Variable width : nat.

Lemma repeat_snoc_cons {A : Type} (a : A) (n : nat) (l : list A) :
  repeat a n ++ a :: l = a :: repeat a n ++ l.
Proof.
  induction n as [|n IH]; simpl; auto.
  now rewrite IH.
Qed.

Lemma firstn_prefix {A : Type} (pre post : list A) :
  firstn (length pre) (pre ++ post) = pre.
Proof.
  induction pre as [|a pre IH]; simpl; [now destruct post|now rewrite IH].
Qed.

Lemma skipn_past {A : Type} (pre post : list A) (a : A) :
  skipn (S (length pre)) (pre ++ a :: post) = post.
Proof.
  induction pre as [|a' pre IH]; simpl; auto.
Qed.

Lemma removeRow_at (pre post : Grid) (r : Row) :
  removeRow width (pre ++ r :: post) (length pre)
  = emptyRow width :: pre ++ post.
Proof.
  unfold removeRow.
  now rewrite firstn_prefix, skipn_past.
Qed.

(** Removing the full rows one at a time, top to bottom, with the
    indices taken from the grid before the clearing, rebuilds the grid
    from its other rows under as many empty rows. *)
Lemma clear_fold (g pre : Grid) :
  fold_left (removeRow width) (fullRowsFrom (length pre) g) (pre ++ g)
  = repeat (emptyRow width) (length (filter rowFull g))
    ++ pre ++ filter (fun r => negb (rowFull r)) g.
Proof.
  revert pre; induction g as [|r g IH]; intros pre; simpl.
  - reflexivity.
  - destruct (rowFull r) eqn:Hr; simpl.
    + rewrite removeRow_at.
      change ((emptyRow width) :: pre ++ g)
        with (((emptyRow width) :: pre) ++ g).
      change (S (length pre)) with (length ((emptyRow width) :: pre)).
      rewrite IH. simpl.
      now rewrite repeat_snoc_cons.
    + replace (pre ++ r :: g) with ((pre ++ [r]) ++ g)
        by now rewrite <- app_assoc.
      replace (S (length pre)) with (length (pre ++ [r]))
        by (rewrite length_app; simpl; lia).
      rewrite IH. now rewrite <- app_assoc.
Qed.

Lemma clearRows_rebuilt (b : Board) :
  cells (clearRows width b) = rebuilt width (cells b).
Proof.
  unfold clearRows, clearedRows, rebuilt; simpl.
  exact (clear_fold (cells b) []).
Qed.

Lemma fullRowsFrom_length (i : nat) (g : Grid) :
  length (fullRowsFrom i g) = length (filter rowFull g).
Proof.
  revert i; induction g as [|r g IH]; intros i; simpl; auto.
  destruct (rowFull r); simpl; auto.
Qed.

Lemma fullRowsFrom_In (i k : nat) (g : Grid) :
  In k (fullRowsFrom i g) <->
  (i <= k)%nat /\ exists r, nth_error g (k - i) = Some r /\ rowFull r = true.
Proof.
  revert i; induction g as [|r g IH]; intros i; simpl.
  - split; [easy|]. intros [_ [r [H _]]]. now destruct (k - i)%nat.
  - assert (Hstep : (i <= k)%nat /\ k <> i ->
                    (k - i = S (k - S i))%nat) by lia.
    destruct (rowFull r) eqn:Hr; simpl; rewrite ?IH; split.
    + intros [<-|[Hk [r' [H1 H2]]]].
      * split; [lia|]. rewrite Nat.sub_diag. simpl. eauto.
      * split; [lia|]. rewrite Hstep by lia. simpl. eauto.
    + intros [Hk [r' [H1 H2]]].
      destruct (Nat.eq_dec i k) as [->|Hne]; [now left|right].
      split; [lia|]. rewrite Hstep in H1 by lia. simpl in H1. eauto.
    + intros [Hk [r' [H1 H2]]].
      split; [lia|]. rewrite Hstep by lia. simpl. eauto.
    + intros [Hk [r' [H1 H2]]].
      destruct (Nat.eq_dec i k) as [->|Hne].
      * rewrite Nat.sub_diag in H1. simpl in H1. congruence.
      * split; [lia|]. rewrite Hstep in H1 by lia. simpl in H1. eauto.
Qed.

Lemma filter_split_length (g : Grid) :
  (length (filter rowFull g)
   + length (filter (fun r => negb (rowFull r)) g) = length g)%nat.
Proof.
  induction g as [|r g IH]; simpl; auto.
  destruct (rowFull r); simpl; lia.
Qed.

Lemma rebuilt_length (g : Grid) : length (rebuilt width g) = length g.
Proof.
  unfold rebuilt. rewrite length_app, repeat_length.
  apply filter_split_length.
Qed.

Lemma rebuilt_top (g : Grid) (j : nat) :
  (j < length (filter rowFull g))%nat ->
  nth_error (rebuilt width g) j = Some (emptyRow width).
Proof.
  intros Hj. unfold rebuilt.
  rewrite nth_error_app1 by now rewrite repeat_length.
  now apply nth_error_repeat.
Qed.

(** A row that is not full moves down by the number of full rows that
    were below it. *)
Lemma rebuilt_survivor (g : Grid) (i : nat) (r : Row) :
  nth_error g i = Some r -> rowFull r = false ->
  nth_error (rebuilt width g)
            (i + length (filter rowFull (skipn (S i) g))) = Some r.
Proof.
  intros Hi Hr.
  destruct (nth_error_split g i Hi) as (pre & post & -> & Hlen).
  subst i. rewrite skipn_past. unfold rebuilt.
  rewrite !filter_app; simpl. rewrite Hr; simpl.
  rewrite !length_app.
  pose proof (filter_split_length pre) as Hpre.
  set (a := length (filter rowFull pre)) in *.
  set (c := length (filter rowFull post)) in *.
  set (keep := filter (fun r0 => negb (rowFull r0)) pre) in *.
  rewrite nth_error_app2 by (rewrite repeat_length; lia).
  rewrite repeat_length.
  rewrite nth_error_app2 by lia.
  replace (length pre + c - (a + c) - length keep)%nat with 0%nat by lia.
  reflexivity.
Qed.

End RowClearing.

(** C9. For every grid, [clearRows] removes exactly the rows in which
    every cell is settled, however many there are, with one consistent
    shift: the rows it removes are those [clearedRows] lists, which are
    the full ones; the grid keeps its height; the top rows, as many as
    were removed, are empty; every row that is not full is found again,
    moved down by exactly the number of full rows that were below it;
    and the result is the grid rebuilt from the rows that are not full,
    in order, under the empty rows.  The falling piece is untouched. *)
Theorem clearRows_removes_full_rows (width : nat) (b : Board) :
  (forall k, In k (clearedRows b) <->
             exists r, nth_error (cells b) k = Some r /\ rowFull r = true)
  /\ length (cells (clearRows width b)) = length (cells b)
  /\ (forall j, (j < length (clearedRows b))%nat ->
                nth_error (cells (clearRows width b)) j = Some (emptyRow width))
  /\ (forall i r,
        nth_error (cells b) i = Some r -> rowFull r = false ->
        nth_error (cells (clearRows width b))
                  (i + length (filter rowFull (skipn (S i) (cells b))))
        = Some r)
  /\ cells (clearRows width b)
     = repeat (emptyRow width) (length (clearedRows b))
       ++ filter (fun r => negb (rowFull r)) (cells b)
  /\ currentPiece (clearRows width b) = currentPiece b
  /\ currentPosition (clearRows width b) = currentPosition b.
Proof.
  rewrite clearRows_rebuilt.
  unfold clearedRows. rewrite fullRowsFrom_length.
  repeat split.
  - intros H. apply fullRowsFrom_In in H as [_ H].
    now rewrite Nat.sub_0_r in H.
  - intros H. apply fullRowsFrom_In. split; [lia|].
    now rewrite Nat.sub_0_r.
  - apply rebuilt_length.
  - apply rebuilt_top.
  - apply rebuilt_survivor.
Qed.

(** The example of the spec: height 4, rows 1 and 3 full, row 0 = A and
    row 2 = B; after the clearing the grid is empty, empty, A, B. *)
Example clearRows_two_of_four :
  let A := [Some ColorRed; None] in
  let B := [None; Some ColorBlue] in
  let F := [Some ColorGreen; Some ColorGreen] in
  clearedRows (mkBoard [A; F; B; F] 0 (V 0 0)) = [1; 3]%nat
  /\ cells (clearRows 2 (mkBoard [A; F; B; F] 0 (V 0 0)))
     = [[None; None]; [None; None]; A; B].
Proof. split; reflexivity. Qed.

(** ** Pieces: rotation arithmetic *)

(** Go's remainder followed by the correction of a negative result is
    the mathematical modulus. *)
Lemma rem_fixup (a n : Z) :
  0 < n ->
  (let r := Z.rem a n in if r <? 0 then r + n else r) = a mod n.
Proof.
  intros Hn; cbv zeta.
  pose proof (Z.quot_rem' a n) as Hq.
  pose proof (Z.rem_bound_abs a n) as Hb.
  destruct (Z.ltb_spec (Z.rem a n) 0) as [Hneg|Hpos].
  - apply Z.mod_unique with (q := Z.quot a n - 1); lia.
  - apply Z.mod_unique with (q := Z.quot a n); lia.
Qed.

Lemma setRotation_current (p : Piece) : setRotation p (currentRotation p) = p.
Proof. now destruct p. Qed.

Lemma setRotation_twice (p : Piece) (r s : Z) :
  setRotation (setRotation p r) s = setRotation p s.
Proof. reflexivity. Qed.

Lemma rotate_mod (p : Piece) :
  rotationOK p ->
  rotate p
  = Some (setRotation p ((currentRotation p + 1) mod len (rotations p))).
Proof.
  intros [H0 H1]; unfold rotate.
  destruct (Z.eqb_spec (len (rotations p)) 0); [lia|].
  now rewrite Z.rem_mod_nonneg by lia.
Qed.

Lemma unrotate_mod (p : Piece) :
  0 < len (rotations p) ->
  unrotate p
  = Some (setRotation p ((currentRotation p - 1) mod len (rotations p))).
Proof.
  intros H; unfold unrotate.
  destruct (Z.eqb_spec (len (rotations p)) 0); [lia|].
  now rewrite rem_fixup.
Qed.

Lemma dblrotate_mod (p : Piece) :
  0 < len (rotations p) ->
  dblrotate p
  = Some (setRotation p ((currentRotation p + 2) mod len (rotations p))).
Proof.
  intros H; unfold dblrotate.
  destruct (Z.eqb_spec (len (rotations p)) 0); [lia|].
  now rewrite rem_fixup.
Qed.

Lemma setRotation_mod_OK (p : Piece) (a : Z) :
  0 < len (rotations p) ->
  rotationOK (setRotation p (a mod len (rotations p))).
Proof.
  intros H; unfold rotationOK; simpl.
  apply Z.mod_pos_bound; lia.
Qed.

(** [unrotate] undoes [rotate]. *)
Lemma unrotate_rotate (p p' : Piece) :
  rotationOK p -> rotate p = Some p' -> unrotate p' = Some p.
Proof.
  intros Hp Hr. rewrite (rotate_mod p Hp) in Hr. injection Hr as <-.
  destruct Hp as [H0 H1].
  rewrite unrotate_mod by (simpl; lia). simpl.
  rewrite setRotation_twice, Zminus_mod_idemp_l.
  replace (currentRotation p + 1 - 1) with (currentRotation p) by lia.
  rewrite Z.mod_small by lia.
  now rewrite setRotation_current.
Qed.

(** ** Pieces: the catalog behind the pointers *)

Lemma Forall2_update {A B : Type} (R : A -> B -> Prop) (l : list A)
      (l' : list B) (k : nat) (a a' : A) :
  Forall2 R l l' -> nth_error l k = Some a ->
  (forall b, R a b -> R a' b) ->
  Forall2 R (update l k a') l'.
Proof.
  intros H; revert k; induction H as [|h h' t t' Hh Ht IH]; intros [|k] Hk HR;
    simpl in *; try congruence; constructor; auto.
  injection Hk as <-; auto.
Qed.

Lemma Forall_update {A : Type} (P : A -> Prop) (l : list A) (k : nat) (a : A) :
  Forall P l -> P a -> Forall P (update l k a).
Proof.
  intros H; revert k; induction H as [|h t Hh Ht IH]; intros [|k] Ha;
    simpl; constructor; auto.
Qed.

Lemma catalogOK_tetrisPieces : catalogOK tetrisPieces.
Proof.
  split.
  - repeat constructor.
  - repeat constructor; unfold len; simpl; lia.
Qed.

Lemma catalogOK_length (ps : list Piece) : catalogOK ps -> length ps = 7%nat.
Proof. intros [H _]. now apply Forall2_length in H. Qed.

Lemma tetrisPieces_kindCheck : forallb kindCheck tetrisPieces = true.
Proof. reflexivity. Qed.

Lemma catalogOK_lookup (ps : list Piece) (k : nat) :
  catalogOK ps -> (k < 7)%nat ->
  exists p, nth_error ps k = Some p /\ rotationOK p /\ kindCheck p = true.
Proof.
  intros [Hk Hr] Hlt.
  pose proof (Forall2_length Hk) as Hlen. simpl in Hlen.
  destruct (nth_error ps k) as [p|] eqn:Hp.
  2:{ apply nth_error_None in Hp; lia. }
  exists p. split; [reflexivity|]. split.
  - rewrite Forall_forall in Hr. apply Hr. eapply nth_error_In; eauto.
  - destruct (nth_error tetrisPieces k) as [q|] eqn:Hq.
    2:{ apply nth_error_None in Hq; simpl in Hq; lia. }
    assert (Hs : sameKind p q).
    { clear Hr Hlen Hlt. revert k Hp Hq.
      induction Hk as [|a b l l' Hab Hl IH]; intros [|k] Hp Hq;
        simpl in *; try congruence; eauto. }
    pose proof tetrisPieces_kindCheck as Hall.
    rewrite forallb_forall in Hall.
    specialize (Hall q (nth_error_In _ _ Hq)).
    destruct Hs as (_ & Hrot & _). unfold kindCheck in *.
    now rewrite Hrot.
Qed.

Lemma kindCheck_len (p : Piece) : kindCheck p = true -> 0 < len (rotations p).
Proof.
  unfold kindCheck. intros H. apply andb_prop in H as [H _].
  now apply Z.ltb_lt.
Qed.

(** ** The board: placing and moving the falling piece *)

Section BoardMoves.

Variables width height : nat.

Lemma canPlace_returns (ps : list Piece) (b : Board) (delta : Vector)
      (rot : Z) (p : Piece) :
  nth_error ps (currentPiece b) = Some p ->
  0 <= rot < len (rotations p) ->
  exists ok, canPlace width height ps b delta rot = Some ok.
Proof.
  intros Hp Hrot. unfold canPlace. rewrite Hp; simpl.
  destruct (index_in_range (rotations p) rot Hrot) as [inst ->]; simpl.
  eauto.
Qed.

(** A piece that can be placed one row down is above the last row, as
    one of its cells is at or below its origin. *)
Lemma canPlace_down_bound (ps : list Piece) (b : Board) (rot : Z)
      (p : Piece) :
  nth_error ps (currentPiece b) = Some p ->
  kindCheck p = true ->
  canPlace width height ps b (V 0 1) rot = Some true ->
  y (currentPosition b) + 1 < Z.of_nat height.
Proof.
  intros Hp Hchk. unfold canPlace. rewrite Hp; simpl.
  destruct (index (rotations p) rot) as [inst|] eqn:Hinst; simpl;
    [|discriminate].
  intros [= Hall].
  apply index_Some in Hinst as [_ Hinst]. apply nth_error_In in Hinst.
  unfold kindCheck in Hchk. apply andb_prop in Hchk as [_ Hchk].
  rewrite forallb_forall in Hchk. specialize (Hchk inst Hinst).
  apply existsb_exists in Hchk as (off & Hoff & Hy).
  rewrite forallb_forall in Hall. specialize (Hall off Hoff).
  cbv zeta in Hall. simpl in Hall.
  apply andb_prop in Hall as [Hall _]. apply andb_prop in Hall as [_ Hall].
  apply Z.ltb_lt in Hall. apply Z.leb_le in Hy. lia.
Qed.

Lemma moveIfPossible_cases (ps : list Piece) (b : Board) (delta : Vector)
      (p : Piece) :
  nth_error ps (currentPiece b) = Some p ->
  rotationOK p ->
  (canPlace width height ps b delta (currentRotation p) = Some true
   /\ moveIfPossible width height ps b delta
      = Some (true, mkBoard (cells b) (currentPiece b)
                            (plus (currentPosition b) delta)))
  \/ (canPlace width height ps b delta (currentRotation p) = Some false
      /\ moveIfPossible width height ps b delta = Some (false, b)).
Proof.
  intros Hp Hrot.
  destruct (canPlace_returns ps b delta _ p Hp Hrot) as [ok Hok].
  unfold moveIfPossible. rewrite Hp; simpl. rewrite Hok; simpl.
  destruct ok; auto.
Qed.

Lemma currentPieceInCollision_returns (ps : list Piece) (b : Board)
      (p : Piece) :
  nth_error ps (currentPiece b) = Some p ->
  rotationOK p ->
  exists hit, currentPieceInCollision width height ps b = Some hit.
Proof.
  intros Hp Hrot.
  destruct (canPlace_returns ps b (V 0 0) _ p Hp Hrot) as [ok Hok].
  unfold currentPieceInCollision. rewrite Hp; simpl. rewrite Hok; simpl.
  eauto.
Qed.

Lemma mergeCurrentPiece_returns (ps : list Piece) (b : Board) (p : Piece) :
  nth_error ps (currentPiece b) = Some p ->
  rotationOK p ->
  exists b', mergeCurrentPiece ps b = Some b'
             /\ currentPiece b' = currentPiece b
             /\ currentPosition b' = currentPosition b.
Proof.
  intros Hp Hrot. unfold mergeCurrentPiece, instance. rewrite Hp; simpl.
  destruct (index_in_range (rotations p) _ Hrot) as [inst ->]; simpl.
  eauto.
Qed.

(** The loop of [QuickDrop] returns: the piece stops at the first row
    from which it cannot move down, and the grid is as it was. *)
Lemma dropLoop_returns (ps : list Piece) (p : Piece) (n : nat) :
  forall b,
    nth_error ps (currentPiece b) = Some p ->
    rotationOK p -> kindCheck p = true ->
    Z.of_nat height - y (currentPosition b) <= Z.of_nat n ->
    exists b', dropLoop width height (S n) ps b = Some b'
               /\ cells b' = cells b
               /\ currentPiece b' = currentPiece b
               /\ x (currentPosition b') = x (currentPosition b)
               /\ y (currentPosition b) <= y (currentPosition b')
               /\ moveIfPossible width height ps b' (V 0 1)
                  = Some (false, b').
Proof.
  induction n as [|n IH]; intros b Hp Hrot Hchk Hfuel;
    cbn [dropLoop];
    destruct (moveIfPossible_cases ps b (V 0 1) p Hp Hrot)
      as [[Hcan Hmove]|[Hcan Hmove]]; rewrite Hmove; simpl.
  - pose proof (canPlace_down_bound ps b _ p Hp Hchk Hcan). lia.
  - exists b. repeat split; auto; lia.
  - set (b1 := mkBoard (cells b) (currentPiece b)
                       (plus (currentPosition b) (V 0 1))).
    destruct (IH b1) as (b' & Hb' & Hc & Hk & Hx & Hy & Hstop); auto.
    { simpl. lia. }
    exists b'. simpl in *. repeat split; auto; lia.
  - exists b. repeat split; auto; lia.
Qed.

Lemma dropLoop_dropFuel (ps : list Piece) (p : Piece) (b : Board) :
  nth_error ps (currentPiece b) = Some p ->
  rotationOK p -> kindCheck p = true ->
  exists b', dropLoop width height (dropFuel height b) ps b = Some b'
             /\ cells b' = cells b
             /\ currentPiece b' = currentPiece b
             /\ moveIfPossible width height ps b' (V 0 1) = Some (false, b').
Proof.
  intros Hp Hrot Hchk. unfold dropFuel.
  destruct (dropLoop_returns ps p
              (Z.to_nat (Z.of_nat height - y (currentPosition b))) b)
    as (b' & H1 & H2 & H3 & _ & _ & H4); auto; [lia|].
  exists b'; auto.
Qed.

(** With more calls allowed the loop returns the same board. *)
Lemma dropLoop_more_fuel (ps : list Piece) (n m : nat) :
  forall b b',
    dropLoop width height n ps b = Some b' -> (n <= m)%nat ->
    dropLoop width height m ps b = Some b'.
Proof.
  revert m; induction n as [|n IH]; intros m b b' H Hle; [discriminate|].
  destruct m as [|m]; [lia|]. cbn [dropLoop] in *.
  destruct (moveIfPossible width height ps b (V 0 1)) as [[[] b1]|];
    simpl in *; try congruence.
  apply IH; auto; lia.
Qed.

End BoardMoves.

(** C8. For every board whose falling piece is a piece of the store at
    a valid rotation, and every translation [delta], [moveIfPossible]
    returns; either it returns true, the piece can be placed at the
    translated position, and the new board has the position moved by
    exactly [delta] with the settled cells and the piece (hence its kind
    and, the store being only read, its rotation index) as before; or it
    returns false, the piece cannot be placed there, and the board is
    the one it was given. *)
Theorem moveIfPossible_frame (width height : nat) (ps : list Piece)
        (b : Board) (delta : Vector) (p : Piece) :
  nth_error ps (currentPiece b) = Some p ->
  rotationOK p ->
  exists moved b',
    moveIfPossible width height ps b delta = Some (moved, b')
    /\ canPlace width height ps b delta (currentRotation p) = Some moved
    /\ (moved = true ->
        currentPosition b' = plus (currentPosition b) delta
        /\ cells b' = cells b /\ currentPiece b' = currentPiece b)
    /\ (moved = false -> b' = b).
Proof.
  intros Hp Hrot.
  destruct (moveIfPossible_cases width height ps b delta p Hp Hrot)
    as [[Hcan Hmove]|[Hcan Hmove]]; rewrite Hmove, Hcan.
  - eexists _, _. split; [reflexivity|]. repeat split; intros; simpl; auto.
    discriminate.
  - eexists _, _. split; [reflexivity|]. repeat split; intros; simpl; auto;
      discriminate.
Qed.

Lemma moveIfPossible_frame_sample :
  exists moved b',
    moveIfPossible 10 18 tetrisPieces (board (sampleGame 0)) (V 0 1)
    = Some (moved, b')
    /\ canPlace 10 18 tetrisPieces (board (sampleGame 0)) (V 0 1)
                (currentRotation pieceT) = Some moved
    /\ (moved = true ->
        currentPosition b'
        = plus (currentPosition (board (sampleGame 0))) (V 0 1)
        /\ cells b' = cells (board (sampleGame 0))
        /\ currentPiece b' = currentPiece (board (sampleGame 0)))
    /\ (moved = false -> b' = board (sampleGame 0)).
Proof.
  apply (moveIfPossible_frame 10 18 tetrisPieces (board (sampleGame 0))
                              (V 0 1) pieceT).
  - reflexivity.
  - unfold rotationOK, len. simpl. lia.
Defined.

(** On the empty board the T piece moves down by one row, and it cannot
    move left of the wall. *)
Example moveIfPossible_values :
  option_map (fun r => (fst r, currentPosition (snd r)))
             (moveIfPossible 10 18 tetrisPieces (board (sampleGame 0)) (V 0 1))
  = Some (true, V 4 1)
  /\ moveIfPossible 10 18 tetrisPieces (board (sampleGame 0)) (V (-5) 0)
     = Some (false, board (sampleGame 0)).
Proof. split; reflexivity. Qed.

(** ** The game *)

Lemma award_pos (n : nat) : (0 < n)%nat -> 0 < award n.
Proof.
  destruct n as [|m]; [lia|]. intros _. cbn [award].
  assert (0 < 2 ^ Z.of_nat m) by (apply Z.pow_pos_nonneg; lia).
  lia.
Qed.

Lemma points_award (rows : list nat) :
  (0 < length rows)%nat -> points rows = award (length rows).
Proof.
  unfold points, len. destruct (length rows) as [|m]; [lia|]. intros _.
  cbn [award]. do 2 f_equal. lia.
Qed.

(** Reduction of the record projections and setters only. *)
Ltac fields :=
  cbn [bind board nextPiece pieces paused over dropDelayMillis ticker score
       randCalls setBoard setNextPiece setPieces setPaused setOver setScore
       cells currentPiece currentPosition startTicker stopTicker fst snd]
    in *.

(** Splitting of the conjunctions a goal shows, without unfolding. *)
Ltac splits := repeat match goal with |- _ /\ _ => split end.

Section GameSteps.

Variables width height : nat.
Variable initialX : Z.
Variable entropy : nat -> nat.

Lemma GeneratePiece_returns (g : Game) :
  catalogOK (pieces g) ->
  GeneratePiece entropy g
  = Some ((entropy (randCalls g) mod 7)%nat,
          mkGame (board g) (nextPiece g) (pieces g) (paused g) (over g)
                 (dropDelayMillis g) (ticker g) (score g)
                 (S (randCalls g))).
Proof.
  intros H. unfold GeneratePiece. now rewrite (catalogOK_length _ H).
Qed.

Lemma NewGame_returns :
  exists g,
    NewGame width height initialX entropy = Some g
    /\ gameOK g
    /\ pieces g = tetrisPieces
    /\ cells (board g) = repeat (emptyRow width) height
    /\ currentPiece (board g) = (entropy 0 mod 7)%nat
    /\ currentPosition (board g) = V initialX 0
    /\ nextPiece g = (entropy 1 mod 7)%nat
    /\ paused g = false /\ over g = false /\ score g = 0
    /\ dropDelayMillis g = 800 /\ ticker g = Some 800.
Proof.
  eexists. split; [reflexivity|]. simpl.
  repeat split; try apply catalogOK_tetrisPieces;
    apply Nat.mod_upper_bound; lia.
Qed.

(** What [anchor] does to a game in a state the game keeps. *)
Lemma anchor_returns (g : Game) :
  gameOK g ->
  exists b g' p,
    mergeCurrentPiece (pieces g) (board g) = Some b
    /\ anchor width height initialX entropy g = Some g'
    /\ gameOK g'
    /\ score g' = score g + award (length (clearedRows b))
    /\ cells (board g')
       = (if (0 <? length (clearedRows b))%nat
          then cells (clearRows width b) else cells b)
    /\ currentPiece (board g') = nextPiece g
    /\ currentPosition (board g') = V initialX 0
    /\ nextPiece g' = (entropy (randCalls g) mod 7)%nat
    /\ nth_error (pieces g) (nextPiece g') = Some p
    /\ pieces g' = update (pieces g) (nextPiece g') (setRotation p 0)
    /\ paused g' = paused g
    /\ (over g = true -> over g' = true)
    /\ randCalls g' = S (randCalls g).
Proof.
  intros (Hcat & Hcur & Hnext).
  destruct (catalogOK_lookup _ _ Hcat Hcur) as (pc & Hpc & Hrc & Hkc).
  destruct (mergeCurrentPiece_returns _ _ _ Hpc Hrc) as (b & Hb & Hbk & Hbp).
  assert (Hk : (entropy (randCalls g) mod 7 < 7)%nat)
    by (apply Nat.mod_upper_bound; lia).
  destruct (catalogOK_lookup _ _ Hcat Hk) as (p & Hp & Hrp & Hkp).
  assert (Hcat' : catalogOK (update (pieces g) (entropy (randCalls g) mod 7)
                                    (setRotation p 0))).
  { destruct Hcat as [H2 HF]. split.
    - eapply Forall2_update; eauto.
    - apply Forall_update; auto.
      pose proof (kindCheck_len p Hkp). unfold rotationOK; simpl; lia. }
  set (ps' := update (pieces g) (entropy (randCalls g) mod 7)%nat
                     (setRotation p 0)) in *.
  exists b.
  unfold anchor. rewrite Hb. fields.
  set (rows := clearedRows b).
  assert (Hlen : (0 <? len rows) = (0 <? length rows)%nat).
  { unfold len. destruct (Nat.ltb_spec 0 (length rows));
      [apply Z.ltb_lt|apply Z.ltb_ge]; lia. }
  rewrite Hlen.
  destruct (Nat.ltb_spec 0 (length rows)) as [Hrows|Hrows]; fields;
    (rewrite GeneratePiece_returns by (fields; auto)); fields;
    unfold through; fields; rewrite Hp; fields; fold ps';
    destruct (catalogOK_lookup _ _ Hcat' Hnext) as (q & Hq & Hrq & Hkq).
  - destruct (currentPieceInCollision_returns width height ps'
                (mkBoard (cells (clearRows width b)) (nextPiece g)
                         (V initialX 0)) q Hq Hrq) as [hit Hhit].
    rewrite Hhit; fields.
    eexists _, p. split; [reflexivity|]. split; [reflexivity|].
    rewrite points_award by auto.
    destruct Hcat' as [Hc1 Hc2].
    destruct hit; unfold gameOK; fields; repeat split; auto.
  - destruct (currentPieceInCollision_returns width height ps'
                (mkBoard (cells b) (nextPiece g)
                         (V initialX 0)) q Hq Hrq) as [hit Hhit].
    rewrite Hhit; fields.
    eexists _, p. split; [reflexivity|]. split; [reflexivity|].
    replace (length rows) with 0%nat by lia. cbn [award].
    destruct Hcat' as [Hc1 Hc2].
    destruct hit; unfold gameOK; fields; repeat split; auto; lia.
Qed.

Lemma setPieces_same (g : Game) : setPieces g (pieces g) = g.
Proof. now destruct g. Qed.

(** The three rotations of the game share one shape: [turn] is tried
    through the pointer of the falling piece and kept unless the piece
    then collides. *)
Lemma turned_piece (g : Game) (p : Piece) (r : Z) :
  nth_error (pieces g) (currentPiece (board g)) = Some p ->
  0 < len (rotations p) ->
  let p' := setRotation p (r mod len (rotations p)) in
  let ps' := update (pieces g) (currentPiece (board g)) p' in
  nth_error ps' (currentPiece (board g)) = Some p' /\ rotationOK p'
  /\ exists hit,
       currentPieceInCollision width height ps' (board g) = Some hit.
Proof.
  intros Hp Hlen p' ps'.
  assert (Hk : (currentPiece (board g) < length (pieces g))%nat).
  { apply nth_error_Some. congruence. }
  assert (Hp' : nth_error ps' (currentPiece (board g)) = Some p')
    by now apply nth_error_update_eq.
  assert (Hr' : rotationOK p') by now apply setRotation_mod_OK.
  repeat split; auto; try apply Hr'.
  eapply currentPieceInCollision_returns; eauto.
Qed.

Lemma Rotate_cases (g : Game) (p : Piece) :
  nth_error (pieces g) (currentPiece (board g)) = Some p ->
  rotationOK p ->
  let ps' := update (pieces g) (currentPiece (board g))
               (setRotation p ((currentRotation p + 1)
                               mod len (rotations p))) in
  exists hit,
    currentPieceInCollision width height ps' (board g) = Some hit
    /\ Rotate width height g = Some (if hit then g else setPieces g ps').
Proof.
  intros Hp Hrot ps'.
  assert (Hlen : 0 < len (rotations p)) by (destruct Hrot; lia).
  destruct (turned_piece g p (currentRotation p + 1) Hp Hlen)
    as (Hp' & Hr' & hit & Hhit).
  fold ps' in Hp', Hhit. exists hit. split; [assumption|].
  unfold Rotate, through. rewrite Hp; fields.
  rewrite (rotate_mod p Hrot); fields. fold ps'. rewrite Hhit; fields.
  destruct hit; [|reflexivity].
  rewrite Hp'; fields.
  rewrite (unrotate_rotate p _ Hrot (rotate_mod p Hrot)); fields.
  unfold ps'. rewrite update_update, (update_same _ _ _ Hp).
  now rewrite setPieces_same.
Qed.

Lemma RotateCCW_cases (g : Game) (p : Piece) :
  nth_error (pieces g) (currentPiece (board g)) = Some p ->
  rotationOK p ->
  let ps' := update (pieces g) (currentPiece (board g))
               (setRotation p ((currentRotation p - 1)
                               mod len (rotations p))) in
  exists hit,
    currentPieceInCollision width height ps' (board g) = Some hit
    /\ RotateCCW width height g
       = Some (if hit then g else setPieces g ps').
Proof.
  intros Hp Hrot ps'.
  assert (Hlen : 0 < len (rotations p)) by (destruct Hrot; lia).
  destruct (turned_piece g p (currentRotation p - 1) Hp Hlen)
    as (Hp' & Hr' & hit & Hhit).
  fold ps' in Hp', Hhit. exists hit. split; [assumption|].
  unfold RotateCCW, through. rewrite Hp; fields.
  rewrite (unrotate_mod p Hlen); fields. fold ps'. rewrite Hhit; fields.
  now destruct hit.
Qed.

Lemma Rotate180_cases (g : Game) (p : Piece) :
  nth_error (pieces g) (currentPiece (board g)) = Some p ->
  rotationOK p ->
  let ps' := update (pieces g) (currentPiece (board g))
               (setRotation p ((currentRotation p + 2)
                               mod len (rotations p))) in
  exists hit,
    currentPieceInCollision width height ps' (board g) = Some hit
    /\ Rotate180 width height g
       = Some (if hit then g else setPieces g ps').
Proof.
  intros Hp Hrot ps'.
  assert (Hlen : 0 < len (rotations p)) by (destruct Hrot; lia).
  destruct (turned_piece g p (currentRotation p + 2) Hp Hlen)
    as (Hp' & Hr' & hit & Hhit).
  fold ps' in Hp', Hhit. exists hit. split; [assumption|].
  unfold Rotate180, through. rewrite Hp; fields.
  rewrite (dblrotate_mod p Hlen); fields. fold ps'. rewrite Hhit; fields.
  now destruct hit.
Qed.

Lemma scored_le (g g' : Game) :
  scored width height initialX entropy g g' -> score g <= score g'.
Proof.
  intros [->|(g1 & b & _ & _ & _ & Hn & ->)]; [lia|].
  pose proof (award_pos _ Hn). lia.
Qed.

Lemma anchor_scored (g0 g : Game) :
  gameOK g -> score g = score g0 ->
  exists g', anchor width height initialX entropy g = Some g'
             /\ gameOK g' /\ scored width height initialX entropy g0 g'.
Proof.
  intros Hok Hs.
  destruct (anchor_returns g Hok)
    as (b & g' & p & Hb & Ha & Hok' & Hsc & _).
  exists g'. split; [assumption|]. split; [assumption|].
  destruct (length (clearedRows b)) as [|n] eqn:Hn.
  - left. cbn [award] in Hsc. lia.
  - right. exists g, b. rewrite Hn. repeat split; auto; try lia.
Qed.

Lemma Move_returns (g : Game) (d : Direction) :
  gameOK g ->
  exists g', Move width height initialX entropy g d = Some g'
             /\ gameOK g' /\ scored width height initialX entropy g g'.
Proof.
  intros Hok. pose proof Hok as (Hcat & Hcur & Hnext).
  destruct (catalogOK_lookup _ _ Hcat Hcur) as (p & Hp & Hrot & _).
  unfold Move.
  set (translation := match d with
                      | Down => V 0 1
                      | Left => V (-1) 0
                      | Right => V 1 0
                      | Up => V 0 0
                      end).
  destruct (moveIfPossible_cases width height (pieces g) (board g)
              translation p Hp Hrot) as [[_ Hm]|[_ Hm]]; rewrite Hm; fields.
  - exists (setBoard g (mkBoard (cells (board g)) (currentPiece (board g))
                                (plus (currentPosition (board g))
                                      translation))).
    split; [now destruct d|]. split; [|now left].
    unfold gameOK; fields; auto.
  - destruct d; try (eexists; split; [reflexivity|]; split; [|now left];
                     unfold gameOK; fields; auto).
    apply anchor_scored; [unfold gameOK; fields; auto|reflexivity].
Qed.

Lemma QuickDrop_returns (g : Game) :
  gameOK g ->
  exists g', QuickDrop width height initialX entropy g = Some g'
             /\ gameOK g' /\ scored width height initialX entropy g g'.
Proof.
  intros Hok. pose proof Hok as (Hcat & Hcur & Hnext).
  destruct (catalogOK_lookup _ _ Hcat Hcur) as (p & Hp & Hrot & Hchk).
  destruct (dropLoop_dropFuel width height (pieces g) p (board g)
              Hp Hrot Hchk) as (b & Hb & _ & Hk & _).
  unfold QuickDrop. rewrite Hb; fields.
  apply anchor_scored; [|reflexivity].
  unfold gameOK; fields. rewrite Hk. auto.
Qed.

Lemma Rotate_returns (g : Game) :
  gameOK g ->
  exists g', Rotate width height g = Some g'
             /\ gameOK g' /\ score g' = score g /\ board g' = board g.
Proof.
  intros Hok. pose proof Hok as (Hcat & Hcur & Hnext).
  destruct (catalogOK_lookup _ _ Hcat Hcur) as (p & Hp & Hrot & Hchk).
  destruct (Rotate_cases g p Hp Hrot) as (hit & _ & ->).
  destruct hit; eexists; (split; [reflexivity|]); auto.
  unfold gameOK; fields. destruct Hcat as [H2 HF].
  repeat split; auto.
  - eapply Forall2_update; eauto.
  - apply Forall_update; auto.
    apply setRotation_mod_OK. destruct Hrot; lia.
Qed.

Lemma PauseToggle_keeps (g : Game) :
  board (PauseToggle g) = board g
  /\ nextPiece (PauseToggle g) = nextPiece g
  /\ pieces (PauseToggle g) = pieces g
  /\ over (PauseToggle g) = over g
  /\ score (PauseToggle g) = score g
  /\ paused (PauseToggle g) = negb (paused g).
Proof.
  unfold PauseToggle.
  destruct (paused g) eqn:E; fields; rewrite E; repeat split.
Qed.

(** *** The event loop *)

Lemma next_phaseOK (g : Game) : phaseOK (next g) /\ gameOf (next g) = g.
Proof. unfold next. destruct (over g) eqn:H; simpl; auto. Qed.

Lemma step_returns (ph : Phase) (e : Event.GameEvent) :
  gameOK (gameOf ph) -> phaseOK ph ->
  exists ph', step width height initialX entropy ph e = Some ph'
              /\ gameOK (gameOf ph') /\ phaseOK ph'
              /\ scored width height initialX entropy (gameOf ph) (gameOf ph').
Proof.
  intros Hok Hph. destruct ph as [g|g|g]; simpl in *.
  - assert (Hsame : forall g', g' = g ->
              exists ph', Some (next g') = Some ph' /\ gameOK (gameOf ph')
                          /\ phaseOK ph'
                          /\ scored width height initialX entropy g
                                    (gameOf ph')).
    { intros g' ->. eexists. split; [reflexivity|].
      destruct (next_phaseOK g) as [H1 ->]. splits; auto.
      now left. }
    assert (Hop : forall r,
              (exists g', r = Some g' /\ gameOK g'
                          /\ scored width height initialX entropy g g') ->
              exists ph', bind r (fun g' => Some (next g')) = Some ph'
                          /\ gameOK (gameOf ph') /\ phaseOK ph'
                          /\ scored width height initialX entropy g
                                    (gameOf ph')).
    { intros r (g' & -> & Hok' & Hsc). simpl.
      eexists. split; [reflexivity|].
      destruct (next_phaseOK g') as [H1 ->]. auto. }
    assert (Hpause : exists ph', Some (next (PauseToggle g)) = Some ph'
                          /\ gameOK (gameOf ph') /\ phaseOK ph'
                          /\ scored width height initialX entropy g
                                    (gameOf ph')).
    { eexists. split; [reflexivity|].
      destruct (next_phaseOK (PauseToggle g)) as [H1 ->].
      destruct (PauseToggle_keeps g) as (Hb & Hn & Hp & _ & Hs & _).
      splits; auto; [|now left]. unfold gameOK in *.
      rewrite Hb, Hn, Hp. assumption. }
    assert (Hquit : exists ph', Some (Exited g) = Some ph'
                          /\ gameOK (gameOf ph') /\ phaseOK ph'
                          /\ scored width height initialX entropy g
                                    (gameOf ph')).
    { eexists. split; [reflexivity|]. simpl. splits; auto.
      now left. }
    unfold dispatch.
    destruct (paused g); destruct e; auto; apply Hop;
      auto using Move_returns, QuickDrop_returns.
    destruct (Rotate_returns g Hok) as (g' & Hr & Hok' & Hs & _).
    exists g'. splits; auto. now left.
  - destruct e; eexists; (split; [reflexivity|]); simpl;
      splits; auto; now left.
  - eexists; (split; [reflexivity|]); simpl; splits; auto; now left.
Qed.

Lemma run_app (ph : Phase) (es1 es2 : list Event.GameEvent) :
  run width height initialX entropy ph (es1 ++ es2)
  = bind (run width height initialX entropy ph es1)
         (fun ph' => run width height initialX entropy ph' es2).
Proof.
  revert ph; induction es1 as [|e es1 IH]; intros ph; simpl; auto.
  destruct (step width height initialX entropy ph e); simpl; auto.
Qed.

Lemma run_returns (es : list Event.GameEvent) :
  forall ph,
    gameOK (gameOf ph) -> phaseOK ph ->
    exists ph', run width height initialX entropy ph es = Some ph'
                /\ gameOK (gameOf ph') /\ phaseOK ph'
                /\ score (gameOf ph) <= score (gameOf ph').
Proof.
  induction es as [|e es IH]; intros ph Hok Hph; simpl.
  - exists ph. splits; auto; lia.
  - destruct (step_returns ph e Hok Hph) as (ph1 & -> & Hok1 & Hph1 & Hs).
    simpl. destruct (IH ph1 Hok1 Hph1) as (ph' & -> & Hok' & Hph' & Hs').
    exists ph'. splits; auto.
    pose proof (scored_le _ _ Hs). lia.
Qed.

Lemma play_returns (es : list Event.GameEvent) :
  exists g0 ph,
    NewGame width height initialX entropy = Some g0
    /\ play width height initialX entropy es = Some ph
    /\ run width height initialX entropy (Running g0) es = Some ph
    /\ gameOK (gameOf ph) /\ phaseOK ph
    /\ 0 <= score (gameOf ph).
Proof.
  destruct NewGame_returns
    as (g0 & Hg0 & Hok & _ & _ & _ & _ & _ & _ & Hov & Hsc & _).
  destruct (run_returns es (Running g0) Hok Hov)
    as (ph & Hrun & Hok' & Hph' & Hs).
  exists g0, ph. unfold play. rewrite Hg0; simpl.
  splits; auto. simpl in Hs. lia.
Qed.

End GameSteps.

(** ** The speed curve *)

(** C7. For every score [s >= 0] the gravity interval that
    [startTicker] sets is [max 200 (800 - s/5)] milliseconds, with
    integer division: 800 at score 0, 700 at score 500, and the floor of
    200 from score 3000 on.  The ticker runs at that interval and the
    score is not touched. *)
Theorem startTicker_interval (g : Game) :
  0 <= score g ->
  dropDelayMillis (startTicker g) = Z.max 200 (800 - score g / 5)
  /\ (score g = 0 -> dropDelayMillis (startTicker g) = 800)
  /\ (score g = 500 -> dropDelayMillis (startTicker g) = 700)
  /\ (3000 <= score g -> dropDelayMillis (startTicker g) = 200)
  /\ ticker (startTicker g) = Some (dropDelayMillis (startTicker g))
  /\ score (startTicker g) = score g.
Proof.
  intros Hs. unfold startTicker; fields.
  rewrite Z.quot_div_nonneg by lia.
  assert (Hmax : (if 800 - score g / 5 <? 200 then 200
                  else 800 - score g / 5)
                 = Z.max 200 (800 - score g / 5)).
  { destruct (Z.ltb_spec (800 - score g / 5) 200); lia. }
  rewrite Hmax. splits; auto.
  - intros ->. reflexivity.
  - intros ->. reflexivity.
  - intros H. assert (600 <= score g / 5)
      by (apply Z.div_le_lower_bound; lia). lia.
Qed.

Lemma startTicker_interval_at_500 :
  dropDelayMillis (startTicker (sampleGame 500)) = Z.max 200 (800 - 500 / 5)
  /\ (score (sampleGame 500) = 0 ->
      dropDelayMillis (startTicker (sampleGame 500)) = 800)
  /\ (score (sampleGame 500) = 500 ->
      dropDelayMillis (startTicker (sampleGame 500)) = 700)
  /\ (3000 <= score (sampleGame 500) ->
      dropDelayMillis (startTicker (sampleGame 500)) = 200)
  /\ ticker (startTicker (sampleGame 500))
     = Some (dropDelayMillis (startTicker (sampleGame 500)))
  /\ score (startTicker (sampleGame 500)) = score (sampleGame 500).
Proof.
  apply (startTicker_interval (sampleGame 500)). simpl. lia.
Defined.

(** ** Scoring *)

(** C4. An [anchor] that clears [n] rows, [1 <= n <= 4], adds exactly
    [100 * 2^(n-1)] to the score: 100, 200, 400 and 800 for one to four
    rows; an [anchor] that clears no row leaves the score as it was.
    The rows cleared are the full rows of the board once the falling
    piece is merged. *)
Theorem anchor_score (width height : nat) (initialX : Z)
        (entropy : nat -> nat) (g : Game) (b : Board) (n : nat) :
  gameOK g ->
  mergeCurrentPiece (pieces g) (board g) = Some b ->
  length (clearedRows b) = n ->
  exists g',
    anchor width height initialX entropy g = Some g'
    /\ ((1 <= n <= 4)%nat ->
        score g' = score g + 100 * 2 ^ (Z.of_nat n - 1))
    /\ (n = 1%nat -> score g' = score g + 100)
    /\ (n = 2%nat -> score g' = score g + 200)
    /\ (n = 3%nat -> score g' = score g + 400)
    /\ (n = 4%nat -> score g' = score g + 800)
    /\ (n = 0%nat -> score g' = score g).
Proof.
  intros Hok Hb Hn.
  destruct (anchor_returns width height initialX entropy g Hok)
    as (b' & g' & p & Hb' & Ha & _ & Hsc & _).
  rewrite Hb in Hb'. injection Hb' as <-. rewrite Hn in Hsc.
  exists g'. split; [assumption|]. rewrite Hsc.
  splits; try (intros ->; reflexivity).
  - intros H. destruct n as [|m]; [lia|]. cbn [award].
    do 3 f_equal. lia.
  - intros ->. cbn [award]. lia.
Qed.

Lemma anchor_score_two_rows :
  exists g',
    anchor 4 4 1 (fun _ => 0%nat) twoRowsGame = Some g'
    /\ ((1 <= 2 <= 4)%nat ->
        score g' = score twoRowsGame + 100 * 2 ^ (2 - 1))
    /\ (2%nat = 1%nat -> score g' = score twoRowsGame + 100)
    /\ (2%nat = 2%nat -> score g' = score twoRowsGame + 200)
    /\ (2%nat = 3%nat -> score g' = score twoRowsGame + 400)
    /\ (2%nat = 4%nat -> score g' = score twoRowsGame + 800)
    /\ (2%nat = 0%nat -> score g' = score twoRowsGame).
Proof.
  apply (anchor_score 4 4 1 (fun _ => 0%nat) twoRowsGame twoRowsMerged 2).
  - split; [apply catalogOK_tetrisPieces|simpl; lia].
  - reflexivity.
  - reflexivity.
Defined.

(** ** Rotation *)

(** C6. Each rotation of the game, clockwise ([Rotate]),
    counter-clockwise ([RotateCCW]) and by a half turn ([Rotate180]),
    returns; it tests the falling piece for collision with the rotation
    index advanced by +1, -1 and +2 modulo the number of rotations of
    the piece; if the piece does not collide there, the game is the one
    it was but for that new index, and if it collides the game is
    exactly the one it was, index included. *)
Theorem rotation_advances_or_reverts (width height : nat) (g : Game)
        (p : Piece) :
  nth_error (pieces g) (currentPiece (board g)) = Some p ->
  rotationOK p ->
  let turned d :=
    update (pieces g) (currentPiece (board g))
           (setRotation p ((currentRotation p + d) mod len (rotations p))) in
  (exists hit,
     currentPieceInCollision width height (turned 1) (board g) = Some hit
     /\ Rotate width height g
        = Some (if hit then g else setPieces g (turned 1)))
  /\ (exists hit,
        currentPieceInCollision width height (turned (-1)) (board g) = Some hit
        /\ RotateCCW width height g
           = Some (if hit then g else setPieces g (turned (-1))))
  /\ (exists hit,
        currentPieceInCollision width height (turned 2) (board g) = Some hit
        /\ Rotate180 width height g
           = Some (if hit then g else setPieces g (turned 2))).
Proof.
  intros Hp Hrot turned. splits.
  - apply (Rotate_cases width height g p Hp Hrot).
  - apply (RotateCCW_cases width height g p Hp Hrot).
  - apply (Rotate180_cases width height g p Hp Hrot).
Qed.

Lemma rotation_of_sample_T :
  let g := sampleGame 0 in
  let turned d :=
    update (pieces g) (currentPiece (board g))
           (setRotation pieceT ((currentRotation pieceT + d)
                                mod len (rotations pieceT))) in
  (exists hit,
     currentPieceInCollision 10 18 (turned 1) (board g) = Some hit
     /\ Rotate 10 18 g = Some (if hit then g else setPieces g (turned 1)))
  /\ (exists hit,
        currentPieceInCollision 10 18 (turned (-1)) (board g) = Some hit
        /\ RotateCCW 10 18 g
           = Some (if hit then g else setPieces g (turned (-1))))
  /\ (exists hit,
        currentPieceInCollision 10 18 (turned 2) (board g) = Some hit
        /\ Rotate180 10 18 g
           = Some (if hit then g else setPieces g (turned 2))).
Proof.
  apply (rotation_advances_or_reverts 10 18 (sampleGame 0) pieceT).
  - reflexivity.
  - unfold rotationOK, len. simpl. lia.
Defined.

(** On the empty board the T piece turns freely: the three rotations
    leave the index at 1, 3 and 2. *)
Example rotation_indices_of_sample_T :
  option_map (fun g => map currentRotation (pieces g))
             (Rotate 10 18 (sampleGame 0)) = Some [0; 0; 0; 1; 0; 0; 0]
  /\ option_map (fun g => map currentRotation (pieces g))
                (RotateCCW 10 18 (sampleGame 0)) = Some [0; 0; 0; 3; 0; 0; 0]
  /\ option_map (fun g => map currentRotation (pieces g))
                (Rotate180 10 18 (sampleGame 0)) = Some [0; 0; 0; 2; 0; 0; 0].
Proof. repeat split. Qed.

(** ** Pieces entering play *)

(** C2, as the code has it.  A piece that enters play, at the start of
    the game and after every [anchor], is placed at the fixed position
    [(initialX, 0)], whatever its kind; [anchor] brings in the lookahead
    piece.  At the start of the game its rotation index is 0, and the
    lookahead piece that [anchor] draws has its rotation index set to
    0. *)
Theorem piece_enters_at_initialX (width height : nat) (initialX : Z)
        (entropy : nat -> nat) :
  (exists g0 p,
     NewGame width height initialX entropy = Some g0
     /\ currentPosition (board g0) = V initialX 0
     /\ nth_error (pieces g0) (currentPiece (board g0)) = Some p
     /\ currentRotation p = 0)
  /\ (forall g,
        gameOK g ->
        exists g' q,
          anchor width height initialX entropy g = Some g'
          /\ currentPiece (board g') = nextPiece g
          /\ currentPosition (board g') = V initialX 0
          /\ nth_error (pieces g') (nextPiece g') = Some q
          /\ currentRotation q = 0).
Proof.
  split.
  - destruct (NewGame_returns width height initialX entropy)
      as (g0 & Hg0 & Hok & Hps & _ & Hk & Hpos & _).
    destruct Hok as (Hcat & Hcur & _).
    destruct (catalogOK_lookup _ _ Hcat Hcur) as (p & Hp & _ & _).
    exists g0, p. splits; auto.
    rewrite Hps in Hp.
    assert (Hall : Forall (fun q => currentRotation q = 0) tetrisPieces)
      by (repeat constructor).
    rewrite Forall_forall in Hall. apply Hall.
    eapply nth_error_In; eauto.
  - intros g Hok.
    destruct (anchor_returns width height initialX entropy g Hok)
      as (b & g' & p & _ & Ha & _ & _ & _ & Hcur & Hpos & Hnext & Hp & Hps
          & _).
    exists g', (setRotation p 0). splits; auto.
    rewrite Hps. apply nth_error_update_eq.
    apply nth_error_Some. congruence.
Qed.

(** The claim as the spec has it fails: whatever the constants of the
    board are, an L piece drawn first enters at [(initialX, 0)], while
    the catalog gives it the spawn offset [(3, -1)]. *)
Lemma spawn_offset_of_catalog_not_used :
  exists entropy : nat -> nat,
    forall (width height : nat) (initialX : Z),
    exists g0 p,
      NewGame width height initialX entropy = Some g0
      /\ nth_error (pieces g0) (currentPiece (board g0)) = Some p
      /\ name p = "L"%string
      /\ initialLocation p = V 3 (-1)
      /\ currentPosition (board g0) = V initialX 0
      /\ currentPosition (board g0) <> initialLocation p.
Proof.
  exists (fun _ => 4%nat). intros width height initialX.
  eexists _, _. split; [reflexivity|]. simpl. splits; try reflexivity.
  intros H. discriminate H.
Qed.

(** The rotation index after an [anchor] is a matter of the aliasing of
    the pointers: when the falling piece and the lookahead piece are one
    catalog slot, a rotation of the first is a rotation of the second,
    and the piece that enters play keeps it.  Here a T falls, a T is
    next, and the draw of [anchor] is an O. *)
Example entering_piece_keeps_rotation_of_alias :
  let entropy := fun k => match k with 0 | 1 => 3 | _ => 0 end%nat in
  exists g p,
    play 10 18 4 entropy [Event.Rotate; Event.QuickDrop] = Some (Running g)
    /\ currentPosition (board g) = V 4 0
    /\ nth_error (pieces g) (currentPiece (board g)) = Some p
    /\ name p = "T"%string
    /\ currentRotation p = 1.
Proof.
  eexists _, _. split; [vm_compute; reflexivity|]. vm_compute. repeat split.
Qed.

(** ** The catalog under play *)

(** C3, as the code has it.  Over every sequence of events the game
    returns, and each entry of its piece slice keeps the name, the
    rotation offsets, the spawn offset and the colour of the catalog
    entry; the current-rotation field of an entry is where the rotation
    of a falling piece is kept, and it stays a valid rotation of the
    entry. *)
Theorem catalog_entries_keep_shape (width height : nat) (initialX : Z)
        (entropy : nat -> nat) (es : list Event.GameEvent) :
  exists ph,
    play width height initialX entropy es = Some ph
    /\ Forall2 (fun p q =>
                  name p = name q /\ rotations p = rotations q
                  /\ initialLocation p = initialLocation q
                  /\ color p = color q)
               (pieces (gameOf ph)) tetrisPieces
    /\ Forall (fun p => 0 <= currentRotation p < len (rotations p))
              (pieces (gameOf ph)).
Proof.
  destruct (play_returns width height initialX entropy es)
    as (g0 & ph & _ & Hplay & _ & (Hcat & _) & _).
  exists ph. split; [assumption|]. exact Hcat.
Qed.

(** The claim as the spec has it fails: a T piece falls on the empty
    10 x 18 board, the first [Rotate] event turns it, and the
    current-rotation field of the T entry of the game's catalog is 1
    where [tetrisPieces] built it as 0. *)
Lemma Rotate_writes_catalog_entry :
  exists g,
    play 10 18 4 (fun _ => 3%nat) [Event.Rotate] = Some (Running g)
    /\ option_map currentRotation (nth_error tetrisPieces 3) = Some 0
    /\ option_map currentRotation (nth_error (pieces g) 3) = Some 1
    /\ pieces g <> tetrisPieces.
Proof.
  eexists. split; [vm_compute; reflexivity|].
  splits; try reflexivity. intros H. discriminate H.
Qed.

(** ** Pause and game over *)

Lemma event_eq_dec (e e' : Event.GameEvent) : {e = e'} + {e <> e'}.
Proof. decide equality. Defined.

(** C5.  While the game is paused, a movement, rotation or drop event
    leaves the whole game as it was, grid, score and piece position
    included, and the loop goes on.  Once the game is over the loop of
    [Start] has left its main loop: every state reached by play is in
    the main loop with the game not over, or in the final loop with the
    game over, or has returned; in the final loop every event but [Quit]
    leaves the state as it is, [Quit] makes [Start] return, and no later
    event changes the game. *)
Theorem paused_and_over_ignore_events (width height : nat) (initialX : Z)
        (entropy : nat -> nat) :
  (forall g e,
     paused g = true ->
     In e [Event.MoveLeft; Event.MoveRight; Event.MoveDown; Event.Rotate;
           Event.QuickDrop] ->
     exists ph,
       step width height initialX entropy (Running g) e = Some ph
       /\ gameOf ph = g
       /\ (over g = false -> ph = Running g))
  /\ (forall g e,
        e <> Event.Quit ->
        step width height initialX entropy (GameOver g) e = Some (GameOver g))
  /\ (forall g,
        step width height initialX entropy (GameOver g) Event.Quit
        = Some (Exited g))
  /\ (forall g es,
        exists ph,
          run width height initialX entropy (GameOver g) es = Some ph
          /\ gameOf ph = g
          /\ (ph = GameOver g \/ (ph = Exited g /\ In Event.Quit es)))
  /\ (forall es,
        exists ph,
          play width height initialX entropy es = Some ph
          /\ match ph with
             | Running g => over g = false
             | GameOver g => over g = true
             | Exited _ => True
             end).
Proof.
  splits.
  - intros g e Hp He. unfold step, dispatch. rewrite Hp.
    exists (next g). split.
    + simpl in He.
      destruct He as [<-|[<-|[<-|[<-|[<-|[]]]]]]; reflexivity.
    + split; [apply next_phaseOK|]. unfold next. now intros ->.
  - intros g e He. destruct e; simpl; congruence.
  - reflexivity.
  - intros g es.
    assert (Hexit : forall es',
               run width height initialX entropy (Exited g) es'
               = Some (Exited g)).
    { induction es' as [|e es' IH]; simpl; auto. }
    induction es as [|e es IH].
    + exists (GameOver g). simpl. auto.
    + destruct (event_eq_dec e Event.Quit) as [->|Hne].
      * exists (Exited g). simpl. rewrite Hexit. splits; auto.
      * destruct IH as (ph & Hrun & Hg & Hcase).
        exists ph. cbn [run].
        replace (step width height initialX entropy (GameOver g) e)
          with (Some (GameOver g)) by (destruct e; simpl; congruence).
        simpl. rewrite Hrun. splits; auto.
        destruct Hcase as [->|[-> Hin]]; [now left|right].
        split; [reflexivity|now right].
  - intros es.
    destruct (play_returns width height initialX entropy es)
      as (g0 & ph & _ & Hplay & _ & _ & Hph & _).
    exists ph. split; [assumption|]. exact Hph.
Qed.

(** ** The score *)

(** C10.  The score of a new game is 0.  [PauseToggle] and [Rotate]
    leave the score as it is; [Move] and [QuickDrop] leave it as it is
    unless they [anchor]; an [anchor] adds the award of the rows it
    clears, which is 0 when it clears none and strictly positive
    otherwise.  So over every sequence of events the game returns, the
    score is never negative, and it never decreases as more events are
    played. *)
Theorem score_never_decreases (width height : nat) (initialX : Z)
        (entropy : nat -> nat) :
  (exists g0, NewGame width height initialX entropy = Some g0 /\ score g0 = 0)
  /\ (forall g, score (PauseToggle g) = score g)
  /\ (forall g, gameOK g ->
                exists g', Rotate width height g = Some g'
                           /\ score g' = score g)
  /\ (forall g d, gameOK g ->
                  exists g', Move width height initialX entropy g d = Some g'
                             /\ scored width height initialX entropy g g')
  /\ (forall g, gameOK g ->
                exists g', QuickDrop width height initialX entropy g = Some g'
                           /\ scored width height initialX entropy g g')
  /\ (forall g, gameOK g ->
                exists b g',
                  mergeCurrentPiece (pieces g) (board g) = Some b
                  /\ anchor width height initialX entropy g = Some g'
                  /\ score g' = score g + award (length (clearedRows b))
                  /\ (length (clearedRows b) = 0%nat ->
                      award (length (clearedRows b)) = 0)
                  /\ ((0 < length (clearedRows b))%nat ->
                      0 < award (length (clearedRows b))))
  /\ (forall es1 es2,
        exists ph1 ph2,
          play width height initialX entropy es1 = Some ph1
          /\ play width height initialX entropy (es1 ++ es2) = Some ph2
          /\ 0 <= score (gameOf ph1) <= score (gameOf ph2)).
Proof.
  splits.
  - destruct (NewGame_returns width height initialX entropy)
      as (g0 & Hg0 & _ & _ & _ & _ & _ & _ & _ & _ & Hs & _).
    eauto.
  - intros g. apply PauseToggle_keeps.
  - intros g Hok.
    destruct (Rotate_returns width height g Hok) as (g' & Hr & _ & Hs & _).
    eauto.
  - intros g d Hok.
    destruct (Move_returns width height initialX entropy g d Hok)
      as (g' & Hm & _ & Hs). eauto.
  - intros g Hok.
    destruct (QuickDrop_returns width height initialX entropy g Hok)
      as (g' & Hm & _ & Hs). eauto.
  - intros g Hok.
    destruct (anchor_returns width height initialX entropy g Hok)
      as (b & g' & p & Hb & Ha & _ & Hsc & _).
    exists b, g'. splits; auto.
    + now intros ->.
    + apply award_pos.
  - intros es1 es2.
    destruct (play_returns width height initialX entropy es1)
      as (g0 & ph1 & Hg0 & Hplay & Hrun & Hok & Hph & Hs).
    destruct (run_returns width height initialX entropy es2 ph1 Hok Hph)
      as (ph2 & Hrun2 & _ & _ & Hs2).
    exists ph1, ph2. splits; auto.
    unfold play. rewrite Hg0. cbn [bind].
    rewrite run_app, Hrun. exact Hrun2.
Qed.

(** ** The bag randomizer *)

Section BagShuffle.

Variable rnd : nat -> nat.

Let occ (l : list Z) (v : Z) : nat := count_occ Z.eq_dec l v.
Let one (a v : Z) : nat := if Z.eq_dec a v then 1%nat else 0%nat.

Lemma occ_update (l : list Z) (i : nat) (a b v : Z) :
  nth_error l i = Some a ->
  (occ (update l i b) v + one a v = occ l v + one b v)%nat.
Proof.
  unfold occ, one.
  revert i; induction l as [|h t IH]; intros [|i] Hi; simpl in *;
    try discriminate.
  - injection Hi as ->.
    destruct (Z.eq_dec b v), (Z.eq_dec a v); lia.
  - specialize (IH i Hi). destruct (Z.eq_dec h v); lia.
Qed.

Lemma swap_returns (i j : nat) (l : list Z) :
  (i < length l)%nat -> (j < length l)%nat ->
  exists l', Supply.swap i j l = Some l'
             /\ Permutation l' l /\ length l' = length l.
Proof.
  intros Hi Hj. unfold Supply.swap.
  destruct (nth_error l i) as [a|] eqn:Ha;
    [|apply nth_error_None in Ha; lia].
  destruct (nth_error l j) as [b|] eqn:Hb;
    [|apply nth_error_None in Hb; lia].
  simpl. eexists. split; [reflexivity|]. split.
  - assert (Hb' : nth_error (update l i b) j = Some b).
    { destruct (Nat.eq_dec i j) as [<-|Hne].
      - now apply nth_error_update_eq.
      - now rewrite nth_error_update_neq. }
    apply (Permutation_count_occ Z.eq_dec). intros v.
    pose proof (occ_update l i a b v Ha).
    pose proof (occ_update (update l i b) j b a v Hb').
    unfold occ in *. lia.
  - now rewrite !update_length.
Qed.

Lemma shuffleFrom_returns (i : nat) :
  forall l,
    (i < length l)%nat ->
    exists l', Supply.shuffleFrom rnd i l = Some l'
               /\ Permutation l' l.
Proof.
  induction i as [|i IH]; intros l Hi; simpl.
  - eauto.
  - assert (Hj : (rnd (S i) mod S (S i) < length l)%nat).
    { pose proof (Nat.mod_upper_bound (rnd (S i)) (S (S i))). lia. }
    destruct (swap_returns (S i) _ l Hi Hj) as (l1 & -> & Hperm & Hlen).
    simpl. destruct (IH l1) as (l' & -> & Hperm'); [lia|].
    exists l'. split; [reflexivity|].
    now transitivity l1.
Qed.

End BagShuffle.

Lemma firstn_snoc {A : Type} (l : list A) (n : nat) (a : A) :
  nth_error l n = Some a -> firstn (S n) l = firstn n l ++ [a].
Proof.
  revert n; induction l as [|h t IH]; intros [|n] H; simpl in *;
    try discriminate.
  - now injection H as ->.
  - f_equal. now apply IH.
Qed.

Lemma getPiece_within (rnd : nat -> nat) (b : Supply.Bag) :
  0 <= Supply.pieceNumber b < len (Supply.pieces b) ->
  exists k,
    let b' := Supply.mkBag (Supply.pieceNumber b - 1) (Supply.pieces b)
                           (Supply.bagNumber b) in
    Supply.getPiece rnd b = Some (k, b') /\ pending b = k :: pending b'.
Proof.
  intros Hpn. unfold Supply.getPiece.
  destruct (Z.ltb_spec (Supply.pieceNumber b) 0); [lia|]. cbn [bind].
  destruct (index_in_range _ _ Hpn) as [k Hk]. rewrite Hk. cbn [bind].
  exists k. split; [reflexivity|].
  unfold pending; simpl.
  apply index_Some in Hk as [_ Hk].
  replace (Z.to_nat (Supply.pieceNumber b + 1))
    with (S (Z.to_nat (Supply.pieceNumber b))) by lia.
  replace (Z.to_nat (Supply.pieceNumber b - 1 + 1))
    with (Z.to_nat (Supply.pieceNumber b)) by lia.
  rewrite (firstn_snoc _ _ _ Hk), rev_app_distr. reflexivity.
Qed.

Lemma getPiece_boundary (rnd : nat -> nat) (b : Supply.Bag) :
  Supply.pieceNumber b < 0 ->
  exists k l,
    let b' := Supply.mkBag 5 l (Supply.bagNumber b + 1) in
    Supply.getPiece rnd b = Some (k, b')
    /\ Permutation (k :: pending b') allKinds
    /\ length l = 7%nat.
Proof.
  intros Hpn. unfold Supply.getPiece.
  destruct (Z.ltb_spec (Supply.pieceNumber b) 0); [|lia].
  unfold Supply.initialize, Supply.shuffle. cbv zeta.
  destruct (shuffleFrom_returns rnd 6 allKinds) as (l & Hl & Hperm);
    [simpl; lia|].
  change [0; 1; 2; 3; 4; 5; 6] with allKinds.
  change (length allKinds - 1)%nat with 6%nat.
  rewrite Hl. cbn [bind Supply.pieceNumber Supply.pieces Supply.bagNumber].
  pose proof (Permutation_length Hperm) as Hlen. simpl in Hlen.
  destruct (index_in_range l 6) as [k Hk]; [unfold len; lia|].
  rewrite Hk. cbn [bind]. exists k, l. split; [reflexivity|].
  split; [|assumption].
  unfold pending; simpl.
  apply index_Some in Hk as [_ Hk].
  change (Z.to_nat 6) with 6%nat in Hk.
  change (Pos.to_nat 6) with 6%nat.
  assert (Hall : l = firstn 6 l ++ [k]).
  { rewrite <- (firstn_snoc _ _ _ Hk). symmetry. apply firstn_all2. lia. }
  transitivity l; [|assumption].
  rewrite Hall at 2.
  rewrite Permutation_app_comm. simpl.
  constructor. symmetry. apply Permutation_rev.
Qed.

Lemma draws_Bagged (rnds : list (nat -> nat)) :
  forall b,
    Supply.pieceNumber b < len (Supply.pieces b) ->
    exists ds b',
      Supply.draws rnds b = Some (ds, b')
      /\ length ds = length rnds
      /\ Bagged (pending b) ds.
Proof.
  induction rnds as [|rnd rest IH]; intros b Hb.
  - exists [], b. repeat split. constructor.
  - cbn [Supply.draws].
    destruct (Z_lt_le_dec (Supply.pieceNumber b) 0) as [Hneg|Hpos].
    + destruct (getPiece_boundary rnd b Hneg) as (k & l & Hget & Hperm & Hlen).
      cbv zeta in *. rewrite Hget. cbn [bind].
      destruct (IH (Supply.mkBag 5 l (Supply.bagNumber b + 1)))
        as (ds & b' & Hds & Hlen' & Hbag).
      { unfold len; simpl. lia. }
      rewrite Hds. cbn [bind]. exists (k :: ds), b'.
      split; [reflexivity|]. split; [simpl; lia|].
      replace (pending b) with (@nil Z).
      * eapply Bagged_fresh; [exact Hperm|]. now constructor.
      * unfold pending.
        replace (Z.to_nat (Supply.pieceNumber b + 1)) with 0%nat by lia.
        reflexivity.
    + destruct (getPiece_within rnd b (conj Hpos Hb)) as (k & Hget & Hpend).
      cbv zeta in *. rewrite Hget. cbn [bind].
      destruct (IH (Supply.mkBag (Supply.pieceNumber b - 1) (Supply.pieces b)
                                 (Supply.bagNumber b)))
        as (ds & b' & Hds & Hlen' & Hbag).
      { simpl. lia. }
      rewrite Hds. cbn [bind]. exists (k :: ds), b'.
      split; [reflexivity|]. split; [simpl; lia|].
      rewrite Hpend. now constructor.
Qed.

Lemma allKinds_NoDup (bag : list Z) :
  Permutation bag allKinds -> NoDup bag /\ length bag = 7%nat.
Proof.
  intros H. split.
  - apply Permutation_sym in H. eapply Permutation_NoDup; [exact H|].
    unfold allKinds. repeat constructor; simpl; intuition lia.
  - now apply Permutation_length in H.
Qed.

Lemma Bagged_head (p d : Z) (pend ds : list Z) :
  Bagged (p :: pend) (d :: ds) -> d = p.
Proof. intros H. now inversion H. Qed.

(** The draws the bag holds come first, then whole bags. *)
Lemma Bagged_split (pend ds : list Z) :
  Bagged pend ds -> (length pend <= length ds)%nat ->
  exists ds', ds = pend ++ ds' /\ Bagged [] ds'.
Proof.
  induction 1 as [pend|k pend ds H IH|bag ds Hperm H IH]; intros Hlen.
  - destruct pend; simpl in Hlen; [|lia]. exists []. split; auto.
    constructor.
  - destruct IH as (ds' & -> & Hds'); [simpl in Hlen; lia|].
    exists ds'. auto.
  - exists ds. split; auto. econstructor; eauto.
Qed.

Lemma Bagged_runs (q : nat) :
  forall ds,
    Bagged [] ds -> (7 * q + 7 <= length ds)%nat ->
    Permutation (firstn 7 (skipn (7 * q) ds)) allKinds.
Proof.
  induction q as [|q IH]; intros ds H Hlen;
    inversion H as [pend Hp Hd| |bag ds0 Hperm Hbag Hp Hd]; subst;
    try (simpl in Hlen; lia);
    destruct (allKinds_NoDup bag Hperm) as [_ Hbl];
    (destruct (Bagged_split bag ds Hbag) as (ds' & -> & Hds'); [lia|]).
  - simpl skipn. rewrite <- Hbl, firstn_prefix. assumption.
  - replace (7 * S q)%nat with (length bag + 7 * q)%nat by lia.
    rewrite skipn_app, skipn_all2 by lia.
    replace (length bag + 7 * q - length bag)%nat with (7 * q)%nat by lia.
    simpl app. apply IH; auto.
    rewrite length_app in Hlen. lia.
Qed.

(** The first two draws differ, unless one draw is left in the bag. *)
Lemma Bagged_first_two (pend ds : list Z) :
  Bagged pend ds -> NoDup pend -> length pend <> 1%nat ->
  forall a ds', ds <> a :: a :: ds'.
Proof.
  induction 1 as [pend|k pend ds H IH|bag ds Hperm H IH];
    intros Hnd Hlen a ds' Heq.
  - discriminate.
  - injection Heq as -> ->.
    destruct pend as [|p pend]; [simpl in Hlen; lia|].
    apply Bagged_head in H as ->.
    inversion Hnd as [|? ? Hin _]; subst. apply Hin. now left.
  - destruct (allKinds_NoDup bag Hperm) as [Hnd' Hbl].
    apply (IH Hnd' ltac:(lia) a ds' Heq).
Qed.

(** No kind comes three times in a row. *)
Lemma Bagged_no_triple (pend ds : list Z) :
  Bagged pend ds -> NoDup pend ->
  forall pre a post, ds <> pre ++ a :: a :: a :: post.
Proof.
  induction 1 as [pend|k pend ds H IH|bag ds Hperm H IH];
    intros Hnd pre a post Heq.
  - now destruct pre.
  - inversion Hnd as [|? ? Hin Hnd']; subst.
    destruct pre as [|h pre]; simpl in Heq.
    + injection Heq as -> ->.
      destruct pend as [|p pend].
      * inversion H as [| |bag ds0 Hperm Hbag Hp Hd]; subst.
        destruct (allKinds_NoDup bag Hperm) as [Hnd2 Hbl].
        apply (Bagged_first_two bag _ Hbag Hnd2 ltac:(lia) a post eq_refl).
      * apply Bagged_head in H as ->. apply Hin. now left.
    + injection Heq as -> ->. apply (IH Hnd' pre a post eq_refl).
  - destruct (allKinds_NoDup bag Hperm) as [Hnd' _].
    apply (IH Hnd' pre a post Heq).
Qed.

Lemma three_in_a_row (ds : list Z) (i : nat) (a : Z) :
  nth_error ds i = Some a -> nth_error ds (S i) = Some a ->
  nth_error ds (S (S i)) = Some a ->
  exists pre post, ds = pre ++ a :: a :: a :: post.
Proof.
  revert ds; induction i as [|i IH]; intros ds H0 H1 H2.
  - destruct ds as [|d0 [|d1 [|d2 post]]]; simpl in *; try discriminate.
    injection H0 as ->. injection H1 as ->. injection H2 as ->.
    now exists [], post.
  - destruct ds as [|d ds]; [discriminate|]. simpl in *.
    destruct (IH ds H0 H1 H2) as (pre & post & ->).
    now exists (d :: pre), post.
Qed.

(** C1, as the code has it.  The draws of [Bag.getPiece], taken from a
    bag boundary (the piece number is negative, so the next draw opens a
    fresh bag), return whatever the random source yields; cut into
    consecutive runs of 7, each run holds every one of the 7 kinds
    exactly once, and no kind comes three times in a row. *)
Theorem bag_draws_are_permutations (rnds : list (nat -> nat))
        (b : Supply.Bag) :
  Supply.pieceNumber b < 0 ->
  exists ds b',
    Supply.draws rnds b = Some (ds, b')
    /\ length ds = length rnds
    /\ (forall q, (7 * q + 7 <= length ds)%nat ->
                  Permutation (firstn 7 (skipn (7 * q) ds))
                              [0; 1; 2; 3; 4; 5; 6])
    /\ (forall i a,
          nth_error ds i = Some a -> nth_error ds (S i) = Some a ->
          nth_error ds (S (S i)) = Some a -> False).
Proof.
  intros Hb.
  destruct (draws_Bagged rnds b) as (ds & b' & Hds & Hlen & Hbag).
  { unfold len. lia. }
  assert (Hpend : pending b = []).
  { unfold pending.
    replace (Z.to_nat (Supply.pieceNumber b + 1)) with 0%nat by lia.
    reflexivity. }
  rewrite Hpend in Hbag.
  exists ds, b'. splits; auto.
  - intros q Hq. now apply Bagged_runs.
  - intros i a H0 H1 H2.
    destruct (three_in_a_row ds i a H0 H1 H2) as (pre & post & Heq).
    apply (Bagged_no_triple [] ds Hbag (NoDup_nil Z) pre a post Heq).
Qed.

(** Nine draws from a bag that was never filled. *)
Lemma bag_draws_of_nine :
  exists ds b',
    Supply.draws (repeat (fun i => i) 9) (Supply.mkBag (-1) [] 0)
    = Some (ds, b')
    /\ length ds = length (repeat (fun i : nat => i) 9)
    /\ (forall q, (7 * q + 7 <= length ds)%nat ->
                  Permutation (firstn 7 (skipn (7 * q) ds))
                              [0; 1; 2; 3; 4; 5; 6])
    /\ (forall i a,
          nth_error ds i = Some a -> nth_error ds (S i) = Some a ->
          nth_error ds (S (S i)) = Some a -> False).
Proof.
  apply (bag_draws_are_permutations (repeat (fun i => i) 9)
                                    (Supply.mkBag (-1) [] 0)).
  simpl. lia.
Defined.

Example bag_draws_of_nine_value :
  option_map fst (Supply.draws (repeat (fun i => i) 9)
                               (Supply.mkBag (-1) [] 0))
  = Some [6; 5; 4; 3; 2; 1; 0; 6; 5].
Proof. reflexivity. Qed.

(** A bag as Go creates it, with piece number 0 and no pieces, is not at
    a bag boundary: the first draw indexes the empty slice. *)
Example zero_bag_cannot_draw :
  Supply.getPiece (fun i => i) (Supply.mkBag 0 [] 0) = None.
Proof. reflexivity. Qed.

(** The claim as the spec has it fails for the supply the game draws
    from: [GeneratePiece] takes [rand.Intn] of the number of pieces, one
    independent draw per call, and when the random source yields 0 three
    times the O piece comes three times in a row; the seven first draws
    then are no permutation of the kinds. *)
Lemma GeneratePiece_repeats_a_kind :
  let entropy := fun _ : nat => 0%nat in
  exists g1 g2 g3,
    GeneratePiece entropy (sampleGame 0) = Some (0%nat, g1)
    /\ GeneratePiece entropy g1 = Some (0%nat, g2)
    /\ GeneratePiece entropy g2 = Some (0%nat, g3)
    /\ option_map name (nth_error (pieces g3) 0) = Some "O"%string.
Proof.
  eexists _, _, _. repeat split.
Qed.

(** * More of the code *)

(** ** Pieces: rotations compose *)

Ltac euclid := Z.to_euclidean_division_equations; lia.

Lemma rotate_index (p : Piece) (r : Z) :
  0 < len (rotations p) ->
  rotate (setRotation p (r mod len (rotations p)))
  = Some (setRotation p ((r + 1) mod len (rotations p))).
Proof.
  intros Hn.
  rewrite rotate_mod by now apply setRotation_mod_OK.
  simpl. now rewrite setRotation_twice, Zplus_mod_idemp_l.
Qed.

Lemma unrotate_index (p : Piece) (r : Z) :
  0 < len (rotations p) ->
  unrotate (setRotation p (r mod len (rotations p)))
  = Some (setRotation p ((r - 1) mod len (rotations p))).
Proof.
  intros Hn. rewrite unrotate_mod by assumption.
  simpl. now rewrite setRotation_twice, Zminus_mod_idemp_l.
Qed.

Lemma rotationOK_mod (p : Piece) :
  rotationOK p ->
  0 < len (rotations p)
  /\ p = setRotation p (currentRotation p mod len (rotations p)).
Proof.
  intros [H0 H1]. split; [lia|].
  rewrite Z.mod_small by lia. now rewrite setRotation_current.
Qed.

(** X1. From a valid rotation index, [unrotate] undoes [rotate] and
    [rotate] undoes [unrotate]: either way round the piece is the one it
    was. *)
Theorem rotate_unrotate_round_trip (p : Piece) :
  rotationOK p ->
  bind (rotate p) unrotate = Some p /\ bind (unrotate p) rotate = Some p.
Proof.
  intros Hp. destruct (rotationOK_mod p Hp) as [Hn Heq]. split.
  - rewrite (rotate_mod p Hp). cbn [bind].
    apply (unrotate_rotate p _ Hp (rotate_mod p Hp)).
  - rewrite (unrotate_mod p Hn). cbn [bind].
    rewrite rotate_index by assumption.
    replace (currentRotation p - 1 + 1) with (currentRotation p) by lia.
    now rewrite <- Heq.
Qed.

Lemma rotate_unrotate_round_trip_T :
  bind (rotate pieceT) unrotate = Some pieceT
  /\ bind (unrotate pieceT) rotate = Some pieceT.
Proof.
  apply (rotate_unrotate_round_trip pieceT).
  unfold rotationOK, len. simpl. lia.
Defined.

(** X2. From a valid rotation index, [dblrotate] is [rotate] twice; and
    for a piece whose number of rotations divides 4, as 1, 2 and 4 of
    the catalog do, two half turns bring the piece back. *)
Theorem dblrotate_is_rotate_twice (p : Piece) :
  rotationOK p ->
  dblrotate p = bind (rotate p) rotate
  /\ (4 mod len (rotations p) = 0 -> bind (dblrotate p) dblrotate = Some p).
Proof.
  intros Hp. destruct (rotationOK_mod p Hp) as [Hn Heq]. split.
  - rewrite (dblrotate_mod p Hn), (rotate_mod p Hp). cbn [bind].
    rewrite rotate_index by assumption.
    now replace (currentRotation p + 1 + 1) with (currentRotation p + 2)
      by lia.
  - intros H4. rewrite (dblrotate_mod p Hn). cbn [bind].
    rewrite dblrotate_mod by (simpl; assumption). simpl.
    rewrite setRotation_twice, Zplus_mod_idemp_l.
    replace (currentRotation p + 2 + 2) with (currentRotation p + 4) by lia.
    rewrite <- Zplus_mod_idemp_r, H4, Z.add_0_r.
    now rewrite <- Heq.
Qed.

Lemma dblrotate_is_rotate_twice_T :
  dblrotate pieceT = bind (rotate pieceT) rotate
  /\ (4 mod len (rotations pieceT) = 0 ->
      bind (dblrotate pieceT) dblrotate = Some pieceT).
Proof.
  apply (dblrotate_is_rotate_twice pieceT).
  unfold rotationOK, len. simpl. lia.
Defined.

Lemma times_rotate (p : Piece) (k : nat) :
  0 < len (rotations p) ->
  forall r,
    times k rotate (setRotation p (r mod len (rotations p)))
    = Some (setRotation p ((r + Z.of_nat k) mod len (rotations p))).
Proof.
  intros Hn. induction k as [|k IH]; intros r.
  - simpl. now rewrite Z.add_0_r.
  - cbn [times]. rewrite rotate_index by assumption. cbn [bind].
    rewrite IH. do 3 f_equal. lia.
Qed.

Lemma times_unrotate (p : Piece) (k : nat) :
  0 < len (rotations p) ->
  forall r,
    times k unrotate (setRotation p (r mod len (rotations p)))
    = Some (setRotation p ((r - Z.of_nat k) mod len (rotations p))).
Proof.
  intros Hn. induction k as [|k IH]; intros r.
  - simpl. now rewrite Z.sub_0_r.
  - cbn [times]. rewrite unrotate_index by assumption. cbn [bind].
    rewrite IH. do 3 f_equal. lia.
Qed.

(** X3. From a valid rotation index [c] of a piece with [n] rotations,
    [k] calls of [rotate] leave the index at [(c + k) mod n]; as many
    calls as the piece has rotations bring it back, and so do [k] calls
    of [unrotate] after [k] calls of [rotate], for every [k]. *)
Theorem rotate_cycles (p : Piece) (k : nat) :
  rotationOK p ->
  times k rotate p
  = Some (setRotation p ((currentRotation p + Z.of_nat k)
                         mod len (rotations p)))
  /\ times (length (rotations p)) rotate p = Some p
  /\ bind (times k rotate p) (times k unrotate) = Some p.
Proof.
  intros Hp. destruct (rotationOK_mod p Hp) as [Hn Heq].
  assert (Hk : forall j,
             times j rotate p
             = Some (setRotation p ((currentRotation p + Z.of_nat j)
                                    mod len (rotations p)))).
  { intros j. rewrite Heq at 1. now apply times_rotate. }
  splits.
  - apply Hk.
  - rewrite Hk. fold (len (rotations p)).
    rewrite <- Zplus_mod_idemp_r, Z_mod_same_full, Z.add_0_r.
    now rewrite <- Heq.
  - rewrite Hk. cbn [bind]. rewrite times_unrotate by assumption.
    replace (currentRotation p + Z.of_nat k - Z.of_nat k)
      with (currentRotation p) by lia.
    now rewrite <- Heq.
Qed.

Lemma rotate_cycles_T :
  times 7 rotate pieceT
  = Some (setRotation pieceT ((currentRotation pieceT + Z.of_nat 7)
                              mod len (rotations pieceT)))
  /\ times (length (rotations pieceT)) rotate pieceT = Some pieceT
  /\ bind (times 7 rotate pieceT) (times 7 unrotate) = Some pieceT.
Proof.
  apply (rotate_cycles pieceT 7).
  unfold rotationOK, len. simpl. lia.
Defined.


(** A rotation index of -3 is out of range: [rotate] leaves it at -2,
    [unrotate] and [dblrotate] bring it into range. *)
Example rotation_of_a_negative_index :
  option_map currentRotation (rotate (setRotation pieceT (-3))) = Some (-2)
  /\ option_map currentRotation (unrotate (setRotation pieceT (-3)))
     = Some 0
  /\ option_map currentRotation (dblrotate (setRotation pieceT (-3)))
     = Some 3.
Proof. repeat split. Qed.

(** ** The bag: what a draw is, and the bookkeeping *)

Lemma Bagged_kinds (pend ds : list Z) :
  Bagged pend ds ->
  Forall (fun d => In d allKinds) pend ->
  Forall (fun d => In d allKinds) ds.
Proof.
  induction 1 as [pend|k pend ds H IH|bag ds Hperm H IH]; intros Hp.
  - constructor.
  - inversion Hp; subst. constructor; auto.
  - apply IH. apply Forall_forall. intros d Hd.
    eapply Permutation_in; eauto.
Qed.

(** X5. Every draw of [Bag.getPiece] from a bag boundary, however many
    are made and whatever the random source yields, is one of 0..6: a
    valid index into the catalog of seven pieces. *)
Theorem bag_draws_are_kinds (rnds : list (nat -> nat)) (b : Supply.Bag) :
  Supply.pieceNumber b < 0 ->
  exists ds b',
    Supply.draws rnds b = Some (ds, b')
    /\ Forall (fun d => 0 <= d < len tetrisPieces
                        /\ exists p, index tetrisPieces d = Some p) ds.
Proof.
  intros Hb.
  destruct (draws_Bagged rnds b) as (ds & b' & Hds & _ & Hbag).
  { unfold len. lia. }
  exists ds, b'. split; [assumption|].
  apply Bagged_kinds in Hbag.
  - eapply Forall_impl; [|exact Hbag]. intros d Hd.
    assert (Hr : 0 <= d < len tetrisPieces)
      by (unfold len; simpl in *; lia).
    split; [assumption|]. now apply index_in_range.
  - unfold pending.
    replace (Z.to_nat (Supply.pieceNumber b + 1)) with 0%nat by lia.
    constructor.
Qed.

Lemma bag_draws_are_kinds_of_nine :
  exists ds b',
    Supply.draws (repeat (fun i => i) 9) (Supply.mkBag (-1) [] 0)
    = Some (ds, b')
    /\ Forall (fun d => 0 <= d < len tetrisPieces
                        /\ exists p, index tetrisPieces d = Some p) ds.
Proof.
  apply (bag_draws_are_kinds (repeat (fun i => i) 9)
                             (Supply.mkBag (-1) [] 0)).
  simpl. lia.
Defined.

(** A fresh bag, in full: the draw at a boundary reshuffles, returns the
    last slot of the fresh slice and leaves six draws. *)
Lemma getPiece_opens_bag (rnd : nat -> nat) (b : Supply.Bag) :
  Supply.pieceNumber b < 0 ->
  exists k l,
    Supply.shuffleFrom rnd 6 allKinds = Some l
    /\ Permutation l allKinds
    /\ Supply.getPiece rnd b
       = Some (k, Supply.mkBag 5 l (Supply.bagNumber b + 1))
    /\ rev l = k :: pending (Supply.mkBag 5 l (Supply.bagNumber b + 1)).
Proof.
  intros Hpn. unfold Supply.getPiece.
  destruct (Z.ltb_spec (Supply.pieceNumber b) 0); [|lia].
  unfold Supply.initialize, Supply.shuffle. cbv zeta.
  destruct (shuffleFrom_returns rnd 6 allKinds) as (l & Hl & Hperm);
    [simpl; lia|].
  change [0; 1; 2; 3; 4; 5; 6] with allKinds.
  change (length allKinds - 1)%nat with 6%nat.
  rewrite Hl. cbn [bind Supply.pieceNumber Supply.pieces Supply.bagNumber].
  pose proof (Permutation_length Hperm) as Hlen. simpl in Hlen.
  destruct (index_in_range l 6) as [k Hk]; [unfold len; lia|].
  rewrite Hk. cbn [bind]. exists k, l. splits; auto.
  unfold pending; simpl.
  apply index_Some in Hk as [_ Hk].
  change (Z.to_nat 6) with 6%nat in Hk.
  change (Pos.to_nat 6) with 6%nat.
  assert (Hall : l = firstn 6 l ++ [k]).
  { rewrite <- (firstn_snoc _ _ _ Hk). symmetry. apply firstn_all2. lia. }
  rewrite Hall at 1. now rewrite rev_app_distr.
Qed.

(** The draws that empty a bag are the ones it holds. *)
Lemma draws_empty_the_bag (rnds : list (nat -> nat)) :
  forall b,
    -1 <= Supply.pieceNumber b < len (Supply.pieces b) ->
    length rnds = Z.to_nat (Supply.pieceNumber b + 1) ->
    Supply.draws rnds b
    = Some (pending b,
            Supply.mkBag (-1) (Supply.pieces b) (Supply.bagNumber b)).
Proof.
  induction rnds as [|rnd rest IH]; intros b Hb Hlen.
  - simpl in Hlen. assert (Supply.pieceNumber b = -1) as Hpn by lia.
    unfold pending. rewrite Hpn. simpl. now destruct b; simpl in *; subst.
  - simpl in Hlen.
    assert (Hpos : 0 <= Supply.pieceNumber b) by lia.
    destruct (getPiece_within rnd b (conj Hpos (proj2 Hb)))
      as (k & Hget & Hpend).
    cbv zeta in *. cbn [Supply.draws]. rewrite Hget. cbn [bind].
    rewrite IH; simpl; try lia.
    cbn [bind]. now rewrite Hpend.
Qed.

(** X6. Seven draws from a bag boundary are one fresh bag emptied: the
    draws are the slice that the shuffle left, read from its last slot
    to its first, the bag number has grown by one, and the bag is at a
    boundary again, so that the next draw reshuffles. *)
Theorem bag_run_of_seven (rnds : list (nat -> nat)) (b : Supply.Bag) :
  Supply.pieceNumber b < 0 ->
  length rnds = 7%nat ->
  exists ds b',
    Supply.draws rnds b = Some (ds, b')
    /\ ds = rev (Supply.pieces b')
    /\ Supply.shuffleFrom (hd (fun i => i) rnds) 6 [0; 1; 2; 3; 4; 5; 6]
       = Some (Supply.pieces b')
    /\ Supply.pieceNumber b' = -1
    /\ Supply.bagNumber b' = Supply.bagNumber b + 1.
Proof.
  intros Hb Hlen. destruct rnds as [|rnd rest]; [discriminate|].
  destruct (getPiece_opens_bag rnd b Hb) as (k & l & Hl & Hperm & Hget & Hrev).
  pose proof (Permutation_length Hperm) as Hl7. simpl in Hl7.
  cbn [Supply.draws]. rewrite Hget. cbn [bind].
  rewrite draws_empty_the_bag; simpl in *; unfold len; try lia.
  cbn [bind]. eexists _, _. split; [reflexivity|]. simpl.
  splits; auto.
Qed.

Lemma bag_run_of_seven_sample :
  exists ds b',
    Supply.draws (repeat (fun i => i) 7) (Supply.mkBag (-1) [] 0)
    = Some (ds, b')
    /\ ds = rev (Supply.pieces b')
    /\ Supply.shuffleFrom (hd (fun i => i) (repeat (fun i => i) 7)) 6
                          [0; 1; 2; 3; 4; 5; 6]
       = Some (Supply.pieces b')
    /\ Supply.pieceNumber b' = -1
    /\ Supply.bagNumber b' = Supply.bagNumber (Supply.mkBag (-1) [] 0) + 1.
Proof.
  apply (bag_run_of_seven (repeat (fun i => i) 7) (Supply.mkBag (-1) [] 0)).
  - simpl. lia.
  - reflexivity.
Defined.

Lemma draws_bookkeeping (rnds : list (nat -> nat)) :
  forall b,
    Supply.pieceNumber b < 0
    \/ (Supply.pieceNumber b < len (Supply.pieces b)
        /\ Permutation (Supply.pieces b) allKinds) ->
    let n := Z.of_nat (length rnds) in
    let m := Z.max 0 (Supply.pieceNumber b + 1) in
    exists ds b',
      Supply.draws rnds b = Some (ds, b')
      /\ Supply.bagNumber b' = Supply.bagNumber b + (Z.max 0 (n - m) + 6) / 7
      /\ (n <= m -> Supply.pieceNumber b' = Supply.pieceNumber b - n
                    /\ Supply.pieces b' = Supply.pieces b)
      /\ (m < n -> Supply.pieceNumber b' = 5 - (n - m - 1) mod 7
                   /\ Permutation (Supply.pieces b') allKinds).
Proof.
  induction rnds as [|rnd rest IH]; intros b Hb n m.
  - exists [], b. subst n m. cbn [length Supply.draws].
    change (Z.of_nat 0) with 0.
    splits; [reflexivity|euclid|intros; split; [lia|reflexivity]|intros; lia].
  - cbn [Supply.draws].
    destruct (Z_lt_le_dec (Supply.pieceNumber b) 0) as [Hneg|Hpos].
    + destruct (getPiece_opens_bag rnd b Hneg)
        as (k & l & _ & Hperm & Hget & _).
      pose proof (Permutation_length Hperm) as Hl7. simpl in Hl7.
      rewrite Hget. cbn [bind].
      destruct (IH (Supply.mkBag 5 l (Supply.bagNumber b + 1)))
        as (ds & b' & Hds & Hbn & Hle & Hgt).
      { right. unfold len. cbn [Supply.pieceNumber Supply.pieces].
        split; [lia|assumption]. }
      rewrite Hds. cbn [bind]. exists (k :: ds), b'.
      split; [reflexivity|].
      cbn [Supply.pieceNumber Supply.pieces Supply.bagNumber]
        in Hbn, Hle, Hgt.
      subst n m. rewrite length_cons, Nat2Z.inj_succ.
      set (n' := Z.of_nat (length rest)) in *.
      assert (Hn' : 0 <= n') by (subst n'; lia).
      replace (Z.max 0 (Supply.pieceNumber b + 1)) with 0 by lia.
      change (Z.max 0 (5 + 1)) with 6 in *.
      splits.
      * rewrite Hbn. euclid.
      * lia.
      * intros _. destruct (Z_le_gt_dec n' 6) as [H6|H6].
        -- destruct (Hle H6) as [-> ->]. split; [euclid|assumption].
        -- destruct (Hgt ltac:(lia)) as [-> Hp]. split; [euclid|assumption].
    + destruct Hb as [Hb|[Hb Hperm]]; [lia|].
      destruct (getPiece_within rnd b (conj Hpos Hb)) as (k & Hget & _).
      cbv zeta in Hget. rewrite Hget. cbn [bind].
      destruct (IH (Supply.mkBag (Supply.pieceNumber b - 1) (Supply.pieces b)
                                 (Supply.bagNumber b)))
        as (ds & b' & Hds & Hbn & Hle & Hgt).
      { right. cbn [Supply.pieceNumber Supply.pieces].
        split; [lia|assumption]. }
      rewrite Hds. cbn [bind]. exists (k :: ds), b'.
      split; [reflexivity|].
      cbn [Supply.pieceNumber Supply.pieces Supply.bagNumber]
        in Hbn, Hle, Hgt.
      subst n m. rewrite length_cons, Nat2Z.inj_succ.
      set (n' := Z.of_nat (length rest)) in *.
      replace (Z.max 0 (Supply.pieceNumber b + 1))
        with (Supply.pieceNumber b + 1) by lia.
      replace (Z.max 0 (Supply.pieceNumber b - 1 + 1))
        with (Supply.pieceNumber b) in * by lia.
      splits.
      * rewrite Hbn. do 3 f_equal. lia.
      * intros H. destruct (Hle ltac:(lia)) as [-> ->]. split; [lia|auto].
      * intros H. destruct (Hgt ltac:(lia)) as [-> Hp].
        split; [do 2 f_equal; lia|assumption].
Qed.

(** X7. After [n] draws from a bag boundary the bag number has grown by
    the number of bags opened, [n] divided by 7 and rounded up; and,
    for [n > 0], the piece number is [5 - (n - 1) mod 7], so between -1
    and 5, and the slice of the bag is a permutation of the seven
    kinds. *)
Theorem bag_bookkeeping (rnds : list (nat -> nat)) (b : Supply.Bag) :
  Supply.pieceNumber b < 0 ->
  let n := Z.of_nat (length rnds) in
  exists ds b',
    Supply.draws rnds b = Some (ds, b')
    /\ Supply.bagNumber b' = Supply.bagNumber b + (n + 6) / 7
    /\ (0 < n ->
        Supply.pieceNumber b' = 5 - (n - 1) mod 7
        /\ -1 <= Supply.pieceNumber b' <= 5
        /\ Permutation (Supply.pieces b') [0; 1; 2; 3; 4; 5; 6]).
Proof.
  intros Hb n.
  destruct (draws_bookkeeping rnds b (or_introl Hb))
    as (ds & b' & Hds & Hbn & _ & Hgt).
  cbv zeta in *. fold n in Hbn, Hgt.
  replace (Z.max 0 (Supply.pieceNumber b + 1)) with 0 in * by lia.
  assert (Hn : 0 <= n) by (subst n; lia).
  exists ds, b'. splits; auto.
  - rewrite Hbn. do 2 f_equal. lia.
  - intros Hpos. destruct (Hgt Hpos) as [Hpn Hperm].
    replace (n - 0 - 1) with (n - 1) in Hpn by lia.
    splits; auto; rewrite Hpn; euclid.
Qed.

Lemma bag_bookkeeping_of_nine :
  let n := Z.of_nat (length (repeat (fun i : nat => i) 9)) in
  exists ds b',
    Supply.draws (repeat (fun i => i) 9) (Supply.mkBag (-1) [] 0)
    = Some (ds, b')
    /\ Supply.bagNumber b'
       = Supply.bagNumber (Supply.mkBag (-1) [] 0) + (n + 6) / 7
    /\ (0 < n ->
        Supply.pieceNumber b' = 5 - (n - 1) mod 7
        /\ -1 <= Supply.pieceNumber b' <= 5
        /\ Permutation (Supply.pieces b') [0; 1; 2; 3; 4; 5; 6]).
Proof.
  apply (bag_bookkeeping (repeat (fun i => i) 9) (Supply.mkBag (-1) [] 0)).
  simpl. lia.
Defined.

(** ** The bag: the shuffle reaches every permutation once *)

Lemma natsEqb_eq (a b : list nat) : natsEqb a b = true -> a = b.
Proof.
  revert b; induction a as [|h t IH]; intros [|h' t'] H; simpl in H;
    try discriminate; auto.
  apply andb_prop in H as [H1 H2]. apply Nat.eqb_eq in H1.
  f_equal; auto.
Qed.

Lemma zsEqb_eq (a b : list Z) : zsEqb a b = true -> a = b.
Proof.
  revert b; induction a as [|h t IH]; intros [|h' t'] H; simpl in H;
    try discriminate; auto.
  apply andb_prop in H as [H1 H2]. apply Z.eqb_eq in H1.
  f_equal; auto.
Qed.

Lemma distinctZ_NoDup (l : list Z) : NoDup l -> distinctZ l = true.
Proof.
  induction 1 as [|h t Hin Hnd IH]; simpl; auto.
  rewrite IH, andb_true_r. apply negb_true_iff.
  destruct (existsb (Z.eqb h) t) eqn:E; auto.
  apply existsb_exists in E as (v & Hv & Heq).
  apply Z.eqb_eq in Heq. subst. contradiction.
Qed.

Lemma upto_spec (n : nat) (k : nat -> bool) (c : nat) :
  upto n k = true -> (c < n)%nat -> k c = true.
Proof.
  unfold upto. rewrite forallb_forall. intros H Hc.
  apply H. apply in_seq. lia.
Qed.

Lemma overKinds_spec (k : Z -> bool) (v : Z) :
  overKinds k = true -> In v allKinds -> k v = true.
Proof. unfold overKinds. rewrite forallb_forall. auto. Qed.

Lemma allPicksCheck_holds : allPicksCheck = true.
Proof. vm_compute. reflexivity. Qed.

Lemma allSlicesCheck_holds : allSlicesCheck = true.
Proof. vm_compute. reflexivity. Qed.

Lemma validPicks_read_back (cs : list nat) :
  validPicks cs = true ->
  exists f, shuffleBy cs 6 allKinds = Some f
            /\ picksOf f 6 allKinds = Some cs.
Proof.
  destruct cs as [|c6 [|c5 [|c4 [|c3 [|c2 [|c1 [|]]]]]]];
    try discriminate.
  intros H. unfold validPicks in H.
  repeat (apply andb_prop in H as [H ?]).
  repeat match goal with
         | Hc : (_ <? _)%nat = true |- _ => apply Nat.ltb_lt in Hc
         end.
  pose proof allPicksCheck_holds as Hall. unfold allPicksCheck in Hall.
  apply (upto_spec _ _ c6) in Hall; [|assumption].
  apply (upto_spec _ _ c5) in Hall; [|assumption].
  apply (upto_spec _ _ c4) in Hall; [|assumption].
  apply (upto_spec _ _ c3) in Hall; [|assumption].
  apply (upto_spec _ _ c2) in Hall; [|assumption].
  apply (upto_spec _ _ c1) in Hall; [|assumption].
  unfold pickCheck in Hall.
  destruct (shuffleBy [c6; c5; c4; c3; c2; c1] 6 allKinds) as [f|];
    [|discriminate].
  exists f. split; [reflexivity|].
  destruct (picksOf f 6 allKinds) as [cs'|]; [|discriminate].
  apply natsEqb_eq in Hall. now subst.
Qed.

Lemma choices_valid (rnd : nat -> nat) : validPicks (choices rnd) = true.
Proof.
  unfold choices, validPicks. cbn [map].
  repeat (apply andb_true_intro; split);
    apply Nat.ltb_lt; apply Nat.mod_upper_bound; lia.
Qed.

Lemma shuffleFrom_by_choices (rnd : nat -> nat) (l : list Z) :
  Supply.shuffleFrom rnd 6 l = shuffleBy (choices rnd) 6 l.
Proof. reflexivity. Qed.

Lemma shuffle_pieces (rnd : nat -> nat) (b b' : Supply.Bag) :
  Supply.shuffle rnd b = Some b' ->
  Supply.shuffleFrom rnd 6 allKinds = Some (Supply.pieces b').
Proof.
  unfold Supply.shuffle. cbv zeta.
  change [0; 1; 2; 3; 4; 5; 6] with allKinds.
  change (length allKinds - 1)%nat with 6%nat.
  destruct (Supply.shuffleFrom rnd 6 allKinds) as [l|]; [|discriminate].
  cbn [bind]. now intros [= <-].
Qed.

(** X8. The slice that [Bag.shuffle] leaves tells the slot picked at
    every swap: two outcomes of the random source that lead to the same
    slice picked the same slots.  The 5040 sequences of picks, which
    [rand.Shuffle] draws with equal chance, so give 5040 different
    slices. *)
Theorem shuffle_picks_are_read_back (rnd rnd' : nat -> nat)
        (b b1 b2 : Supply.Bag) :
  Supply.shuffle rnd b = Some b1 ->
  Supply.shuffle rnd' b = Some b2 ->
  Supply.pieces b1 = Supply.pieces b2 ->
  picksOf (Supply.pieces b1) 6 [0; 1; 2; 3; 4; 5; 6] = Some (choices rnd)
  /\ choices rnd = choices rnd'.
Proof.
  intros H1 H2 Heq.
  apply shuffle_pieces in H1, H2.
  rewrite shuffleFrom_by_choices in H1, H2.
  destruct (validPicks_read_back _ (choices_valid rnd)) as (f & Hf & Hp).
  destruct (validPicks_read_back _ (choices_valid rnd')) as (f' & Hf' & Hp').
  rewrite Hf in H1. rewrite Hf' in H2.
  injection H1 as E1. injection H2 as E2.
  change [0; 1; 2; 3; 4; 5; 6] with allKinds.
  split; congruence.
Qed.

Lemma shuffle_picks_are_read_back_sample :
  let rnd := fun i : nat => i in
  let rnd' := fun i : nat => (i + 3 * S i)%nat in
  let b := Supply.mkBag 6 [] 0 in
  let b1 := Supply.mkBag 6 [0; 1; 2; 3; 4; 5; 6] 0 in
  picksOf (Supply.pieces b1) 6 [0; 1; 2; 3; 4; 5; 6] = Some (choices rnd)
  /\ choices rnd = choices rnd'.
Proof.
  apply (shuffle_picks_are_read_back
           (fun i => i) (fun i => (i + 3 * S i)%nat) (Supply.mkBag 6 [] 0)
           (Supply.mkBag 6 [0; 1; 2; 3; 4; 5; 6] 0)
           (Supply.mkBag 6 [0; 1; 2; 3; 4; 5; 6] 0));
    reflexivity.
Defined.

(** X9. Every permutation of the seven kinds is a slice that
    [Bag.shuffle] can leave: some outcome of the random source leads to
    it. *)
Theorem shuffle_reaches_every_permutation (f : list Z) (b : Supply.Bag) :
  Permutation f [0; 1; 2; 3; 4; 5; 6] ->
  exists rnd b',
    Supply.shuffle rnd b = Some b'
    /\ Supply.pieces b' = f
    /\ Supply.pieceNumber b' = Supply.pieceNumber b
    /\ Supply.bagNumber b' = Supply.bagNumber b.
Proof.
  intros Hperm. change [0; 1; 2; 3; 4; 5; 6] with allKinds in Hperm.
  destruct (allKinds_NoDup f Hperm) as [Hnd Hlen].
  assert (Hin : forall v, In v f -> In v allKinds)
    by (intros v Hv; eapply Permutation_in; eauto).
  destruct f as [|a [|b0 [|c [|d [|e [|g [|h [|]]]]]]]]; try discriminate.
  pose proof allSlicesCheck_holds as Hall. unfold allSlicesCheck in Hall.
  apply (overKinds_spec _ a) in Hall; [|apply Hin; simpl; tauto].
  apply (overKinds_spec _ b0) in Hall; [|apply Hin; simpl; tauto].
  apply (overKinds_spec _ c) in Hall; [|apply Hin; simpl; tauto].
  apply (overKinds_spec _ d) in Hall; [|apply Hin; simpl; tauto].
  apply (overKinds_spec _ e) in Hall; [|apply Hin; simpl; tauto].
  apply (overKinds_spec _ g) in Hall; [|apply Hin; simpl; tauto].
  apply (overKinds_spec _ h) in Hall; [|apply Hin; simpl; tauto].
  cbv beta in Hall.
  set (f := [a; b0; c; d; e; g; h]) in *.
  unfold sliceCheck in Hall. rewrite (distinctZ_NoDup f Hnd) in Hall.
  destruct (picksOf f 6 allKinds) as [cs|]; [|discriminate].
  apply andb_prop in Hall as [Hvalid Hback].
  destruct (shuffleBy cs 6 allKinds) as [f'|] eqn:Hby; [|discriminate].
  apply zsEqb_eq in Hback. subst f'.
  exists (fun i => nth (6 - i) cs 0%nat).
  assert (Hcs : choices (fun i => nth (6 - i) cs 0%nat) = cs).
  { destruct cs as [|c6 [|c5 [|c4 [|c3 [|c2 [|c1 [|]]]]]]];
      try discriminate.
    unfold validPicks in Hvalid.
    repeat (apply andb_prop in Hvalid as [Hvalid ?]).
    repeat match goal with
           | Hc : (_ <? _)%nat = true |- _ => apply Nat.ltb_lt in Hc
           end.
    unfold choices. cbn [map nth Nat.sub].
    now rewrite !Nat.mod_small by assumption. }
  eexists. unfold Supply.shuffle. cbv zeta.
  change [0; 1; 2; 3; 4; 5; 6] with allKinds.
  change (length allKinds - 1)%nat with 6%nat.
  rewrite shuffleFrom_by_choices, Hcs, Hby. cbn [bind].
  split; [reflexivity|]. repeat split.
Qed.

Lemma shuffle_reaches_a_permutation :
  exists rnd b',
    Supply.shuffle rnd (Supply.mkBag 6 [] 0) = Some b'
    /\ Supply.pieces b' = [3; 1; 4; 0; 6; 2; 5]
    /\ Supply.pieceNumber b' = Supply.pieceNumber (Supply.mkBag 6 [] 0)
    /\ Supply.bagNumber b' = Supply.bagNumber (Supply.mkBag 6 [] 0).
Proof.
  apply (shuffle_reaches_every_permutation [3; 1; 4; 0; 6; 2; 5]
                                           (Supply.mkBag 6 [] 0)).
  apply NoDup_Permutation.
  - repeat constructor; simpl; intuition lia.
  - repeat constructor; simpl; intuition lia.
  - intros v. simpl. intuition lia.
Defined.

(** ** The speed curve and the ticker *)

Lemma startTicker_delay (g : Game) :
  0 <= score g -> dropDelayMillis (startTicker g) = interval (score g).
Proof.
  intros Hs. unfold startTicker, interval; fields.
  destruct (Z.ltb_spec (800 - Z.quot (score g) 5) 200); euclid.
Qed.

(** X10. The game never slows down: of two scores that are not
    negative, the higher gives the shorter or the same delay, and every
    delay lies between the floor of 200 ms and the 800 ms of score 0.
    Above the floor, 500 points more are 100 ms less, as the comment of
    [startTicker] says. *)
Theorem startTicker_speeds_up (g g' : Game) :
  0 <= score g <= score g' ->
  200 <= dropDelayMillis (startTicker g')
      <= dropDelayMillis (startTicker g)
  /\ dropDelayMillis (startTicker g) <= 800
  /\ (score g' = score g + 500 -> score g' <= 3000 ->
      dropDelayMillis (startTicker g')
      = dropDelayMillis (startTicker g) - 100).
Proof.
  intros Hs. rewrite !startTicker_delay by lia. unfold interval.
  splits; intros; euclid.
Qed.

Lemma startTicker_speeds_up_sample :
  200 <= dropDelayMillis (startTicker (sampleGame 1700))
      <= dropDelayMillis (startTicker (sampleGame 1200))
  /\ dropDelayMillis (startTicker (sampleGame 1200)) <= 800
  /\ (score (sampleGame 1700) = score (sampleGame 1200) + 500 ->
      score (sampleGame 1700) <= 3000 ->
      dropDelayMillis (startTicker (sampleGame 1700))
      = dropDelayMillis (startTicker (sampleGame 1200)) - 100).
Proof.
  apply (startTicker_speeds_up (sampleGame 1200) (sampleGame 1700)).
  simpl. lia.
Defined.

Section GameEffects.

Variables width height : nat.
Variable initialX : Z.
Variable entropy : nat -> nat.

Lemma setBoard_same (g : Game) : setBoard g (board g) = g.
Proof. now destruct g. Qed.

(** What [anchor] does besides the score and the pieces: the draw, the
    flags and the ticker. *)
Lemma anchor_flags (g : Game) :
  gameOK g ->
  exists b g' hit,
    mergeCurrentPiece (pieces g) (board g) = Some b
    /\ anchor width height initialX entropy g = Some g'
    /\ randCalls g' = S (randCalls g)
    /\ paused g' = paused g
    /\ currentPieceInCollision width height (pieces g') (board g') = Some hit
    /\ over g' = (over g || hit)
    /\ ((0 < length (clearedRows b))%nat ->
        g' = startTicker g')
    /\ (length (clearedRows b) = 0%nat ->
        dropDelayMillis g' = dropDelayMillis g /\ ticker g' = ticker g).
Proof.
  intros (Hcat & Hcur & Hnext).
  destruct (catalogOK_lookup _ _ Hcat Hcur) as (pc & Hpc & Hrc & Hkc).
  destruct (mergeCurrentPiece_returns _ _ _ Hpc Hrc) as (b & Hb & Hbk & Hbp).
  assert (Hk : (entropy (randCalls g) mod 7 < 7)%nat)
    by (apply Nat.mod_upper_bound; lia).
  destruct (catalogOK_lookup _ _ Hcat Hk) as (p & Hp & Hrp & Hkp).
  assert (Hcat' : catalogOK (update (pieces g) (entropy (randCalls g) mod 7)
                                    (setRotation p 0))).
  { destruct Hcat as [H2 HF]. split.
    - eapply Forall2_update; eauto.
    - apply Forall_update; auto.
      pose proof (kindCheck_len p Hkp). unfold rotationOK; simpl; lia. }
  set (ps' := update (pieces g) (entropy (randCalls g) mod 7)%nat
                     (setRotation p 0)) in *.
  exists b.
  unfold anchor. rewrite Hb. fields.
  set (rows := clearedRows b).
  assert (Hlen : (0 <? len rows) = (0 <? length rows)%nat).
  { unfold len. destruct (Nat.ltb_spec 0 (length rows));
      [apply Z.ltb_lt|apply Z.ltb_ge]; lia. }
  rewrite Hlen.
  destruct (Nat.ltb_spec 0 (length rows)) as [Hrows|Hrows]; fields;
    (rewrite GeneratePiece_returns by (fields; auto)); fields;
    unfold through; fields; rewrite Hp; fields; fold ps';
    destruct (catalogOK_lookup _ _ Hcat' Hnext) as (q & Hq & Hrq & Hkq).
  - destruct (currentPieceInCollision_returns width height ps'
                (mkBoard (cells (clearRows width b)) (nextPiece g)
                         (V initialX 0)) q Hq Hrq) as [hit Hhit].
    rewrite Hhit; fields.
    eexists _, hit. split; [reflexivity|]. split; [reflexivity|].
    destruct hit; fields; rewrite ?orb_true_r, ?orb_false_r;
      splits; auto; try reflexivity; lia.
  - destruct (currentPieceInCollision_returns width height ps'
                (mkBoard (cells b) (nextPiece g)
                         (V initialX 0)) q Hq Hrq) as [hit Hhit].
    rewrite Hhit; fields.
    eexists _, hit. split; [reflexivity|]. split; [reflexivity|].
    destruct hit; fields; rewrite ?orb_true_r, ?orb_false_r;
      splits; auto; try reflexivity; lia.
Qed.

End GameEffects.

(** ** Moves *)

Section GameMoves.

Variables width height : nat.
Variable initialX : Z.
Variable entropy : nat -> nat.

Lemma Move_cases (g : Game) (d : Direction) (p : Piece) :
  nth_error (pieces g) (currentPiece (board g)) = Some p ->
  rotationOK p ->
  exists moved,
    canPlace width height (pieces g) (board g) (translationOf d)
             (currentRotation p) = Some moved
    /\ Move width height initialX entropy g d
       = (if moved
          then Some (setBoard g (mkBoard (cells (board g))
                                         (currentPiece (board g))
                                         (plus (currentPosition (board g))
                                               (translationOf d))))
          else match d with
               | Down => anchor width height initialX entropy g
               | _ => Some g
               end).
Proof.
  intros Hp Hrot. unfold Move.
  change (match d with
          | Down => V 0 1
          | Left => V (-1) 0
          | Right => V 1 0
          | Up => V 0 0
          end) with (translationOf d).
  destruct (moveIfPossible_cases width height (pieces g) (board g)
              (translationOf d) p Hp Hrot) as [[Hc Hm]|[Hc Hm]];
    rewrite Hm; fields.
  - exists true. split; [assumption|]. now destruct d.
  - exists false. split; [assumption|]. rewrite setBoard_same.
    now destruct d.
Qed.

(** X11. A move to the left, to the right or up never anchors: it
    returns, and the game is the one it was, grid, score, pieces and
    flags included, but for the position of the falling piece, which is
    moved by the unit step of the direction when the piece can be
    placed there and is as it was when it cannot. *)
Theorem Move_sideways_only_shifts (g : Game) (d : Direction) (p : Piece) :
  d <> Down ->
  nth_error (pieces g) (currentPiece (board g)) = Some p ->
  rotationOK p ->
  exists moved g',
    canPlace width height (pieces g) (board g) (translationOf d)
             (currentRotation p) = Some moved
    /\ Move width height initialX entropy g d = Some g'
    /\ g' = setBoard g (board g')
    /\ cells (board g') = cells (board g)
    /\ currentPiece (board g') = currentPiece (board g)
    /\ currentPosition (board g')
       = (if moved
          then plus (currentPosition (board g)) (translationOf d)
          else currentPosition (board g)).
Proof.
  intros Hd Hp Hrot.
  destruct (Move_cases g d p Hp Hrot) as (moved & Hc & Hm).
  exists moved. destruct moved.
  - eexists. split; [assumption|]. split; [exact Hm|].
    fields. splits; reflexivity.
  - exists g. split; [assumption|]. split; [destruct d; congruence|].
    rewrite setBoard_same. splits; reflexivity.
Qed.

End GameMoves.

Lemma Move_sideways_sample :
  exists moved g',
    canPlace 10 18 (pieces (sampleGame 0)) (board (sampleGame 0))
             (translationOf Left) (currentRotation pieceT) = Some moved
    /\ Move 10 18 4 (fun i => i) (sampleGame 0) Left = Some g'
    /\ g' = setBoard (sampleGame 0) (board g')
    /\ cells (board g') = cells (board (sampleGame 0))
    /\ currentPiece (board g') = currentPiece (board (sampleGame 0))
    /\ currentPosition (board g')
       = (if moved
          then plus (currentPosition (board (sampleGame 0)))
                    (translationOf Left)
          else currentPosition (board (sampleGame 0))).
Proof.
  apply (Move_sideways_only_shifts 10 18 4 (fun i => i) (sampleGame 0) Left
                                   pieceT).
  - discriminate.
  - reflexivity.
  - unfold rotationOK, len. simpl. lia.
Defined.

(** ** Quick drop, anchor and the timing of a play *)

Lemma times_snoc {A : Type} (k : nat) (f : A -> option A) :
  forall a, times (S k) f a = bind (times k f a) f.
Proof.
  induction k as [|k IH]; intros a.
  - simpl. now destruct (f a).
  - change (times (S (S k)) f a) with (bind (f a) (times (S k) f)).
    change (times (S k) f a) with (bind (f a) (times k f)).
    destruct (f a) as [a'|]; [|reflexivity]. cbn [bind]. apply IH.
Qed.

Lemma startTicker_fixed (g : Game) :
  g = startTicker g ->
  dropDelayMillis g = dropDelayMillis (startTicker g)
  /\ ticker g = Some (dropDelayMillis g).
Proof.
  intros H. split; [now rewrite <- H|]. rewrite H. reflexivity.
Qed.

Lemma board_eta (b : Board) :
  b = mkBoard (cells b) (currentPiece b)
              (V (x (currentPosition b)) (y (currentPosition b) + 0)).
Proof.
  destruct b as [c k [px py]]. simpl. unfold V. now rewrite Z.add_0_r.
Qed.

Section GameTiming.

Variables width height : nat.
Variable initialX : Z.
Variable entropy : nat -> nat.

Let MoveDown (g : Game) : option Game :=
  Move width height initialX entropy g Down.

Lemma drop_as_moves (n : nat) :
  forall g p,
    nth_error (pieces g) (currentPiece (board g)) = Some p ->
    rotationOK p -> kindCheck p = true ->
    Z.of_nat height - y (currentPosition (board g)) <= Z.of_nat n ->
    exists k b',
      dropLoop width height (S n) (pieces g) (board g) = Some b'
      /\ times k MoveDown g = Some (setBoard g b')
      /\ b' = mkBoard (cells (board g)) (currentPiece (board g))
                      (V (x (currentPosition (board g)))
                         (y (currentPosition (board g)) + Z.of_nat k))
      /\ canPlace width height (pieces g) b' (V 0 1) (currentRotation p)
         = Some false.
Proof.
  induction n as [|n IH]; intros g p Hp Hrot Hchk Hfuel;
    cbn [dropLoop];
    destruct (moveIfPossible_cases width height (pieces g) (board g)
                (V 0 1) p Hp Hrot) as [[Hcan Hmove]|[Hcan Hmove]];
    rewrite Hmove; cbn [bind].
  - pose proof (canPlace_down_bound width height _ _ _ p Hp Hchk Hcan). lia.
  - exists 0%nat, (board g). cbn [times]. rewrite setBoard_same.
    splits; auto. apply board_eta.
  - set (b1 := mkBoard (cells (board g)) (currentPiece (board g))
                       (plus (currentPosition (board g)) (V 0 1))).
    destruct (IH (setBoard g b1) p) as (k & b' & Hdrop & Htimes & Hb' & Hstop);
      auto.
    { simpl. lia. }
    exists (S k), b'. fields. splits; auto.
    + cbn [times]. unfold MoveDown at 1.
      destruct (Move_cases width height initialX entropy g Down p Hp Hrot)
        as (moved & Hc & Hm).
      simpl translationOf in Hc, Hm. rewrite Hcan in Hc.
      injection Hc as <-. rewrite Hm. cbn [bind]. exact Htimes.
    + rewrite Hb'. simpl. unfold V. do 2 f_equal; lia.
  - exists 0%nat, (board g). cbn [times]. rewrite setBoard_same.
    splits; auto. apply board_eta.
Qed.

(** [QuickDrop] anchors the game whose falling piece has been lowered
    by some number of rows. *)
Lemma QuickDrop_lands (g : Game) :
  gameOK g ->
  exists k g1,
    g1 = setBoard g (mkBoard (cells (board g)) (currentPiece (board g))
                             (V (x (currentPosition (board g)))
                                (y (currentPosition (board g))
                                 + Z.of_nat k)))
    /\ QuickDrop width height initialX entropy g
       = anchor width height initialX entropy g1.
Proof.
  intros (Hcat & Hcur & Hnext).
  destruct (catalogOK_lookup _ _ Hcat Hcur) as (p & Hp & Hrot & Hchk).
  destruct (drop_as_moves
              (Z.to_nat (Z.of_nat height - y (currentPosition (board g))))
              g p Hp Hrot Hchk ltac:(lia))
    as (k & b' & Hdrop & _ & Hb' & _).
  exists k, (setBoard g b'). split.
  - now rewrite Hb'.
  - unfold QuickDrop, dropFuel. now rewrite Hdrop.
Qed.

(** X12. [QuickDrop] is [Move(Down)] repeated: for some [k], [k] moves
    down bring the falling piece [k] rows lower and change nothing
    else, the next move down fails and anchors, and the game it leaves
    is the game [QuickDrop] leaves. *)
Theorem QuickDrop_is_repeated_Move_Down (g : Game) :
  gameOK g ->
  exists k g1,
    times k (fun h => Move width height initialX entropy h Down) g = Some g1
    /\ g1 = setBoard g (mkBoard (cells (board g)) (currentPiece (board g))
                                (V (x (currentPosition (board g)))
                                   (y (currentPosition (board g))
                                    + Z.of_nat k)))
    /\ Move width height initialX entropy g1 Down
       = anchor width height initialX entropy g1
    /\ QuickDrop width height initialX entropy g
       = anchor width height initialX entropy g1
    /\ times (S k) (fun h => Move width height initialX entropy h Down) g
       = QuickDrop width height initialX entropy g.
Proof.
  intros (Hcat & Hcur & Hnext).
  destruct (catalogOK_lookup _ _ Hcat Hcur) as (p & Hp & Hrot & Hchk).
  destruct (drop_as_moves
              (Z.to_nat (Z.of_nat height - y (currentPosition (board g))))
              g p Hp Hrot Hchk ltac:(lia))
    as (k & b' & Hdrop & Htimes & Hb' & Hstop).
  exists k, (setBoard g b').
  assert (Hq : QuickDrop width height initialX entropy g
               = anchor width height initialX entropy (setBoard g b')).
  { unfold QuickDrop, dropFuel. now rewrite Hdrop. }
  assert (Hm : Move width height initialX entropy (setBoard g b') Down
               = anchor width height initialX entropy (setBoard g b')).
  { assert (Hp' : nth_error (pieces (setBoard g b'))
                            (currentPiece (board (setBoard g b'))) = Some p).
    { fields. rewrite Hb'. exact Hp. }
    destruct (Move_cases width height initialX entropy (setBoard g b') Down
                         p Hp' Hrot) as (moved & Hc & Hmv).
    fields. simpl translationOf in Hc. rewrite Hstop in Hc.
    injection Hc as <-. exact Hmv. }
  splits; auto.
  - now rewrite Hb'.
  - fold MoveDown. rewrite times_snoc, Htimes. cbn [bind].
    unfold MoveDown. now rewrite Hm, Hq.
Qed.

(** X13. An [anchor] makes exactly one draw from the random source, the
    new lookahead piece; it leaves the pause flag alone; it sets the
    game over when the piece that enters play collides and otherwise
    leaves the flag as it was, never clearing it; and it restarts the
    ticker, at the delay of the new score, only when rows were cleared:
    otherwise delay and ticker are untouched. *)
Theorem anchor_draws_once_and_ends_on_collision (g : Game) :
  gameOK g ->
  exists b g' hit,
    mergeCurrentPiece (pieces g) (board g) = Some b
    /\ anchor width height initialX entropy g = Some g'
    /\ randCalls g' = S (randCalls g)
    /\ nextPiece g' = (entropy (randCalls g) mod length (pieces g))%nat
    /\ paused g' = paused g
    /\ currentPieceInCollision width height (pieces g') (board g') = Some hit
    /\ over g' = (over g || hit)
    /\ ((0 < length (clearedRows b))%nat ->
        dropDelayMillis g' = dropDelayMillis (startTicker g')
        /\ ticker g' = Some (dropDelayMillis g'))
    /\ (length (clearedRows b) = 0%nat ->
        dropDelayMillis g' = dropDelayMillis g /\ ticker g' = ticker g).
Proof.
  intros Hok.
  destruct (anchor_flags width height initialX entropy g Hok)
    as (b & g' & hit & Hb & Ha & Hr & Hp & Hhit & Hov & Hrows & Hnone).
  destruct (anchor_returns width height initialX entropy g Hok)
    as (b2 & g2 & p & _ & Ha2 & _ & _ & _ & _ & _ & Hnext & _).
  rewrite Ha in Ha2. injection Ha2 as <-.
  exists b, g', hit. splits; auto.
  - destruct Hok as (Hcat & _). now rewrite (catalogOK_length _ Hcat).
  - intros H. now apply startTicker_fixed, Hrows.
Qed.

Lemma tickerOK_setBoard (g : Game) (b : Board) :
  tickerOK g -> tickerOK (setBoard g b).
Proof. exact (fun H => H). Qed.

Lemma tickerOK_setPieces (g : Game) (ps : list Piece) :
  tickerOK g -> tickerOK (setPieces g ps).
Proof. exact (fun H => H). Qed.

Lemma anchor_tickerOK (g g' : Game) :
  gameOK g -> tickerOK g -> paused g = false ->
  anchor width height initialX entropy g = Some g' ->
  tickerOK g'.
Proof.
  intros Hok (Hd & Ht & k & Hk & Hs) Hp Ha.
  destruct (anchor_flags width height initialX entropy g Hok)
    as (b & g1 & hit & Hb & Ha1 & _ & Hp1 & _ & _ & Hrows & Hnone).
  destruct (anchor_returns width height initialX entropy g Hok)
    as (b2 & g2 & p & Hb2 & Ha2 & _ & Hsc & _).
  rewrite Ha in Ha1, Ha2. injection Ha1 as <-. injection Ha2 as <-.
  rewrite Hb in Hb2. injection Hb2 as <-.
  rewrite Hp in Hp1, Ht.
  destruct (length (clearedRows b)) as [|m] eqn:Hn.
  - destruct (Hnone eq_refl) as [Hd' Ht']. cbn [award] in Hsc.
    unfold tickerOK. rewrite Hp1, Hd', Ht', Hsc, Z.add_0_r.
    splits; auto. exists k. auto.
  - specialize (Hrows ltac:(lia)). cbn [award] in Hsc.
    assert (Hpow : 0 < 2 ^ Z.of_nat m) by (apply Z.pow_pos_nonneg; lia).
    destruct (startTicker_fixed g' Hrows) as [Hfix Htk].
    assert (Hd' : dropDelayMillis g' = interval (score g')).
    { rewrite Hfix. apply startTicker_delay. lia. }
    unfold tickerOK. rewrite Hp1. splits; auto.
    exists (k + 2 ^ Z.of_nat m). split; lia.
Qed.

Lemma PauseToggle_tickerOK (g : Game) : tickerOK g -> tickerOK (PauseToggle g).
Proof.
  intros (Hd & Ht & k & Hk & Hs). unfold PauseToggle, tickerOK.
  destruct (paused g) eqn:Hp; fields; rewrite ?Hp; cbn [negb].
  - splits; auto.
    + apply (startTicker_delay g). lia.
    + exists k. auto.
  - splits; auto. exists k. auto.
Qed.

Lemma step_tickerOK (ph ph' : Phase) (e : Event.GameEvent) :
  gameOK (gameOf ph) -> tickerOK (gameOf ph) ->
  step width height initialX entropy ph e = Some ph' ->
  tickerOK (gameOf ph').
Proof.
  intros Hok Ht Hstep.
  destruct ph as [g|g|g]; simpl in *.
  - pose proof Hok as (Hcat & Hcur & Hnext).
    destruct (catalogOK_lookup _ _ Hcat Hcur) as (p & Hp & Hrot & Hchk).
    assert (Hnextg : forall h, gameOf (next h) = h)
      by (intros h; apply next_phaseOK).
    unfold dispatch in Hstep.
    destruct (paused g) eqn:Hpaused.
    + destruct e; injection Hstep as <-; rewrite ?Hnextg; simpl; auto;
        now apply PauseToggle_tickerOK.
    + assert (Hmove : forall d g',
                 Move width height initialX entropy g d = Some g' ->
                 tickerOK g').
      { intros d g' Hm.
        destruct (Move_cases width height initialX entropy g d p Hp Hrot)
          as (moved & _ & Hmv).
        rewrite Hm in Hmv. destruct moved.
        - injection Hmv as ->. now apply tickerOK_setBoard.
        - destruct d; try (injection Hmv as ->; assumption).
          symmetry in Hmv. eapply anchor_tickerOK; eauto. }
      destruct e; simpl in Hstep;
        try (injection Hstep as <-; rewrite ?Hnextg; simpl; auto;
             now apply PauseToggle_tickerOK).
      * destruct (Move width height initialX entropy g Left) as [g'|] eqn:Hm;
          [|discriminate]. injection Hstep as <-. rewrite Hnextg. eauto.
      * destruct (Move width height initialX entropy g Right) as [g'|] eqn:Hm;
          [|discriminate]. injection Hstep as <-. rewrite Hnextg. eauto.
      * destruct (Move width height initialX entropy g Down) as [g'|] eqn:Hm;
          [|discriminate]. injection Hstep as <-. rewrite Hnextg. eauto.
      * destruct (Rotate_cases width height g p Hp Hrot) as (hit & _ & Hr).
        rewrite Hr in Hstep. cbn [bind] in Hstep.
        injection Hstep as <-. rewrite Hnextg.
        destruct hit; [assumption|now apply tickerOK_setPieces].
      * destruct (QuickDrop_lands g Hok) as (k & g1 & Hg1 & Hq).
        rewrite Hq in Hstep.
        destruct (anchor width height initialX entropy g1) as [g'|] eqn:Ha;
          [|discriminate].
        cbn [bind] in Hstep. injection Hstep as <-. rewrite Hnextg.
        apply (anchor_tickerOK g1 g'); auto.
        -- rewrite Hg1. unfold gameOK; fields. auto.
        -- rewrite Hg1. now apply tickerOK_setBoard.
        -- now rewrite Hg1.
  - destruct e; injection Hstep as <-; assumption.
  - injection Hstep as <-; assumption.
Qed.

Lemma run_tickerOK (es : list Event.GameEvent) :
  forall ph ph',
    gameOK (gameOf ph) -> phaseOK ph -> tickerOK (gameOf ph) ->
    run width height initialX entropy ph es = Some ph' ->
    tickerOK (gameOf ph').
Proof.
  induction es as [|e es IH]; intros ph ph' Hok Hph Ht Hrun; simpl in Hrun.
  - now injection Hrun as <-.
  - destruct (step_returns width height initialX entropy ph e Hok Hph)
      as (ph1 & Hstep & Hok1 & Hph1 & _).
    rewrite Hstep in Hrun. cbn [bind] in Hrun.
    apply (IH ph1 ph' Hok1 Hph1); auto.
    apply (step_tickerOK ph ph1 e); auto.
Qed.

Lemma play_tickerOK (es : list Event.GameEvent) :
  exists ph,
    play width height initialX entropy es = Some ph
    /\ gameOK (gameOf ph) /\ phaseOK ph /\ tickerOK (gameOf ph).
Proof.
  destruct (NewGame_returns width height initialX entropy)
    as (g0 & Hg0 & Hok & _ & _ & _ & _ & _ & Hp & Hov & Hsc & Hd & Ht).
  destruct (run_returns width height initialX entropy es (Running g0) Hok Hov)
    as (ph & Hrun & Hok' & Hph' & _).
  exists ph. unfold play. rewrite Hg0. cbn [bind].
  splits; auto.
  apply (run_tickerOK es (Running g0) ph); auto.
  unfold tickerOK. simpl. rewrite Hp, Hd, Ht, Hsc. splits; auto.
  exists 0. lia.
Qed.

(** X14. Over every play the timing of the game is in step with its
    score and its pause flag: the delay is [max 200 (800 - score/5)],
    so between 200 and 800 ms; the ticker runs, at that delay, exactly
    when the game is not paused; and the score is a multiple of 100. *)
Theorem ticker_follows_score_and_pause (es : list Event.GameEvent) :
  exists ph,
    play width height initialX entropy es = Some ph
    /\ dropDelayMillis (gameOf ph) = Z.max 200 (800 - score (gameOf ph) / 5)
    /\ 200 <= dropDelayMillis (gameOf ph) <= 800
    /\ ticker (gameOf ph)
       = (if paused (gameOf ph) then None
          else Some (dropDelayMillis (gameOf ph)))
    /\ score (gameOf ph) mod 100 = 0.
Proof.
  destruct (play_tickerOK es) as (ph & Hplay & _ & _ & Hd & Ht & k & Hk & Hs).
  exists ph. unfold interval in Hd. splits; auto.
  - rewrite Hd, Hs. euclid.
  - rewrite Hd, Hs. euclid.
  - rewrite Hs. euclid.
Qed.

Lemma PauseToggle_twice (g : Game) :
  tickerOK g -> PauseToggle (PauseToggle g) = g.
Proof.
  intros (Hd & Ht & k & Hk & Hs).
  assert (Hcurve : dropDelayMillis (startTicker g) = dropDelayMillis g).
  { rewrite startTicker_delay by lia. now rewrite Hd. }
  unfold startTicker in Hcurve. fields.
  destruct g as [b np ps pa ov dl tk sc rc]. simpl in *.
  unfold PauseToggle, startTicker, stopTicker.
  destruct pa; simpl; subst tk; rewrite ?Hcurve; reflexivity.
Qed.

(** X15. Pausing and resuming leaves a game in play exactly as it was:
    after any play that is still running, two [Pause] events in a row
    give the same state, ticker and delay included. *)
Theorem pause_then_resume_is_identity (es : list Event.GameEvent) (g : Game) :
  play width height initialX entropy es = Some (Running g) ->
  play width height initialX entropy (es ++ [Event.Pause; Event.Pause])
  = Some (Running g).
Proof.
  intros Hplay.
  destruct (play_tickerOK es) as (ph & Hplay' & _ & Hph & Ht).
  rewrite Hplay in Hplay'. injection Hplay' as <-. simpl in Hph, Ht.
  unfold play in *.
  destruct (NewGame width height initialX entropy) as [g0|]; [|discriminate].
  cbn [bind] in *. rewrite run_app, Hplay. cbn [bind run step].
  destruct (PauseToggle_keeps g) as (_ & _ & _ & Hov & _ & _).
  assert (H1 : dispatch width height initialX entropy Event.Pause g
               = Some (Running (PauseToggle g))).
  { unfold dispatch, next. rewrite Hov, Hph. now destruct (paused g). }
  rewrite H1. cbn [bind run step].
  assert (H2 : dispatch width height initialX entropy Event.Pause
                        (PauseToggle g)
               = Some (Running g)).
  { unfold dispatch, next.
    rewrite (PauseToggle_twice g Ht), Hph.
    now destruct (paused (PauseToggle g)). }
  now rewrite H2.
Qed.

End GameTiming.

Lemma QuickDrop_of_sample_T :
  exists k g1,
    times k (fun h => Move 10 18 4 (fun i => i) h Down) (sampleGame 0)
    = Some g1
    /\ g1 = setBoard (sampleGame 0)
                     (mkBoard (cells (board (sampleGame 0)))
                              (currentPiece (board (sampleGame 0)))
                              (V (x (currentPosition (board (sampleGame 0))))
                                 (y (currentPosition (board (sampleGame 0)))
                                  + Z.of_nat k)))
    /\ Move 10 18 4 (fun i => i) g1 Down = anchor 10 18 4 (fun i => i) g1
    /\ QuickDrop 10 18 4 (fun i => i) (sampleGame 0)
       = anchor 10 18 4 (fun i => i) g1
    /\ times (S k) (fun h => Move 10 18 4 (fun i => i) h Down) (sampleGame 0)
       = QuickDrop 10 18 4 (fun i => i) (sampleGame 0).
Proof.
  apply (QuickDrop_is_repeated_Move_Down 10 18 4 (fun i => i) (sampleGame 0)).
  split; [apply catalogOK_tetrisPieces|simpl; lia].
Defined.

(** The T piece of the sample falls 16 rows before it anchors. *)
Example sample_T_falls_sixteen_rows :
  times 17 (fun h => Move 10 18 4 (fun i => i) h Down) (sampleGame 0)
  = QuickDrop 10 18 4 (fun i => i) (sampleGame 0)
  /\ option_map (fun h => y (currentPosition (board h)))
                (times 16 (fun h => Move 10 18 4 (fun i => i) h Down)
                       (sampleGame 0))
     = Some 16.
Proof. split; vm_compute; reflexivity. Qed.

Lemma anchor_of_two_rows :
  exists b g' hit,
    mergeCurrentPiece (pieces twoRowsGame) (board twoRowsGame) = Some b
    /\ anchor 4 4 1 (fun _ => 0%nat) twoRowsGame = Some g'
    /\ randCalls g' = S (randCalls twoRowsGame)
    /\ nextPiece g'
       = ((fun _ => 0%nat) (randCalls twoRowsGame)
          mod length (pieces twoRowsGame))%nat
    /\ paused g' = paused twoRowsGame
    /\ currentPieceInCollision 4 4 (pieces g') (board g') = Some hit
    /\ over g' = (over twoRowsGame || hit)
    /\ ((0 < length (clearedRows b))%nat ->
        dropDelayMillis g' = dropDelayMillis (startTicker g')
        /\ ticker g' = Some (dropDelayMillis g'))
    /\ (length (clearedRows b) = 0%nat ->
        dropDelayMillis g' = dropDelayMillis twoRowsGame
        /\ ticker g' = ticker twoRowsGame).
Proof.
  apply (anchor_draws_once_and_ends_on_collision 4 4 1 (fun _ => 0%nat)
                                                 twoRowsGame).
  split; [apply catalogOK_tetrisPieces|simpl; lia].
Defined.

Lemma pause_then_resume_sample :
  play 10 18 4 (fun _ => 3%nat) ([] ++ [Event.Pause; Event.Pause])
  = Some (Running (sampleGame 0)).
Proof.
  apply (pause_then_resume_is_identity 10 18 4 (fun _ => 3%nat) []
                                       (sampleGame 0)).
  reflexivity.
Defined.

(** ** The shape of the pieces in play *)

Lemma vector_eqb_eq (a b : Vector) : vector_eqb a b = true <-> a = b.
Proof.
  destruct a as [ax ay], b as [bx b_y]. unfold vector_eqb. simpl.
  rewrite andb_true_iff, !Z.eqb_eq. split.
  - now intros [-> ->].
  - now intros [= -> ->].
Qed.

Lemma distinct_NoDup (l : list Vector) : distinct l = true -> NoDup l.
Proof.
  induction l as [|v l IH]; simpl; intros H; constructor.
  - apply andb_prop in H as [H _]. apply negb_true_iff in H.
    intros Hin.
    assert (existsb (vector_eqb v) l = true); [|congruence].
    apply existsb_exists. exists v. split; [assumption|].
    now apply vector_eqb_eq.
  - apply andb_prop in H as [_ H]. auto.
Qed.

Lemma shapeCheck_spec (inst : PieceInstance) :
  shapeCheck inst = true ->
  length inst = 4%nat /\ NoDup inst
  /\ Forall (fun off => 0 <= x off <= 3 /\ 0 <= y off <= 3) inst.
Proof.
  unfold shapeCheck. intros H.
  apply andb_prop in H as [H Hd]. apply andb_prop in H as [Hl Hb].
  splits.
  - now apply Nat.eqb_eq.
  - now apply distinct_NoDup.
  - apply Forall_forall. intros off Hoff.
    rewrite forallb_forall in Hb. specialize (Hb off Hoff).
    repeat (apply andb_prop in Hb as [Hb ?]).
    repeat match goal with
           | Hc : (_ <=? _) = true |- _ => apply Z.leb_le in Hc
           | Hc : (_ <? _) = true |- _ => apply Z.ltb_lt in Hc
           end.
    lia.
Qed.

Lemma catalogOK_rotations (ps : list Piece) (k : nat) (p : Piece) :
  catalogOK ps -> nth_error ps k = Some p ->
  exists q, In q tetrisPieces /\ rotations p = rotations q.
Proof.
  intros [H2 _]. revert k.
  induction H2 as [|a b l l' Hab Hl IH]; intros [|k] Hk; simpl in *;
    try discriminate.
  - injection Hk as ->. exists b. split; [now left|]. apply Hab.
  - destruct (IH k Hk) as (q & Hq & Hr). exists q. split; [now right|auto].
Qed.

Lemma tetrisPieces_shapes :
  forallb (fun q => forallb shapeCheck (rotations q)
                    && match rotations q with [] => false | _ => true end)
          tetrisPieces = true.
Proof. reflexivity. Qed.

(** X16. Over every play the game can draw what it shows: the falling
    piece has a rotation at its index, the lookahead piece has the
    rotation 0 that the preview draws, and each of the two is four
    cells, all different, within the 4 x 4 box at the origin of the
    piece. *)
Theorem pieces_in_play_have_four_cells (width height : nat) (initialX : Z)
        (entropy : nat -> nat) (es : list Event.GameEvent) :
  exists ph p q inst preview,
    play width height initialX entropy es = Some ph
    /\ nth_error (pieces (gameOf ph)) (currentPiece (board (gameOf ph)))
       = Some p
    /\ instance p = Some inst
    /\ nth_error (pieces (gameOf ph)) (nextPiece (gameOf ph)) = Some q
    /\ index (rotations q) 0 = Some preview
    /\ (forall cellsOf, cellsOf = inst \/ cellsOf = preview ->
        length cellsOf = 4%nat /\ NoDup cellsOf
        /\ Forall (fun off => 0 <= x off <= 3 /\ 0 <= y off <= 3) cellsOf).
Proof.
  destruct (play_returns width height initialX entropy es)
    as (g0 & ph & _ & Hplay & _ & (Hcat & Hcur & Hnext) & _).
  destruct (catalogOK_lookup _ _ Hcat Hcur) as (p & Hp & Hrp & _).
  destruct (catalogOK_lookup _ _ Hcat Hnext) as (q & Hq & Hrq & _).
  destruct (index_in_range (rotations p) _ Hrp) as [inst Hinst].
  destruct (index_in_range (rotations q) 0) as [preview Hprev].
  { destruct Hrq. lia. }
  exists ph, p, q, inst, preview. splits; auto.
  assert (Hshape : forall k r l,
             nth_error (pieces (gameOf ph)) k = Some r ->
             In l (rotations r) -> shapeCheck l = true).
  { intros k r l Hr Hl.
    destruct (catalogOK_rotations _ _ _ Hcat Hr) as (c & Hc & Heq).
    pose proof tetrisPieces_shapes as Hall.
    rewrite forallb_forall in Hall. specialize (Hall c Hc).
    apply andb_prop in Hall as [Hall _].
    rewrite forallb_forall in Hall. apply Hall. now rewrite <- Heq. }
  intros l [->| ->]; apply shapeCheck_spec.
  - apply (Hshape _ p _ Hp).
    apply index_Some in Hinst as [_ Hinst]. eapply nth_error_In; eauto.
  - apply (Hshape _ q _ Hq).
    apply index_Some in Hprev as [_ Hprev]. eapply nth_error_In; eauto.
Qed.

(** ** Keys *)

(** X17. [waitForUserEvent] panics on an error event and on no other.
    Each event that acts on the game comes from a key event of its own
    keys and from nothing else: [Quit] from Ctrl-C or [q], [Pause] from
    [p], [QuickDrop] from the space key, and the three moves and the
    rotation from an arrow key or its letter of [h], [j], [k], [l]; a
    special key ([Ch] is 0) never pauses and a character never drops. *)
Theorem waitForUserEvent_keys (ev : Termbox.Event) :
  let special k :=
    Termbox.Type_ ev = Termbox.EventKey /\ Termbox.Ch ev = 0
    /\ Termbox.Key_ ev = k in
  let char c :=
    Termbox.Type_ ev = Termbox.EventKey /\ Termbox.Ch ev = rune c in
  (waitForUserEvent ev = None <-> Termbox.Type_ ev = Termbox.EventError)
  /\ (waitForUserEvent ev = Some Event.Quit <->
      special Termbox.KeyCtrlC \/ char "q"%char)
  /\ (waitForUserEvent ev = Some Event.Pause <-> char "p"%char)
  /\ (waitForUserEvent ev = Some Event.QuickDrop <->
      special Termbox.KeySpace)
  /\ (waitForUserEvent ev = Some Event.MoveLeft <->
      special Termbox.KeyArrowLeft \/ char "h"%char)
  /\ (waitForUserEvent ev = Some Event.MoveDown <->
      special Termbox.KeyArrowDown \/ char "j"%char)
  /\ (waitForUserEvent ev = Some Event.Rotate <->
      special Termbox.KeyArrowUp \/ char "k"%char)
  /\ (waitForUserEvent ev = Some Event.MoveRight <->
      special Termbox.KeyArrowRight \/ char "l"%char).
Proof.
  destruct ev as [t k c]. unfold waitForUserEvent. cbv zeta.
  cbn [Termbox.Type_ Termbox.Key_ Termbox.Ch].
  change (rune "p") with 112. change (rune "q") with 113.
  change (rune "h") with 104. change (rune "k") with 107.
  change (rune "l") with 108. change (rune "j") with 106.
  destruct t.
  2-4: splits; split; intros H; try discriminate H; try reflexivity;
    repeat match goal with
           | H : _ \/ _ |- _ => destruct H
           | H : _ /\ _ |- _ => destruct H
           end; discriminate.
  destruct (Z.eqb_spec c 0) as [->|H0].
  - destruct k; splits; split; intros H; try discriminate H;
      try (left; splits; reflexivity); try (splits; reflexivity);
      repeat match goal with
             | H : _ \/ _ |- _ => destruct H
             | H : _ /\ _ |- _ => destruct H
             end; try discriminate; try reflexivity.
  - destruct (Z.eqb_spec c 112) as [->|];
      [|destruct (Z.eqb_spec c 113) as [->|];
        [|destruct (Z.eqb_spec c 104) as [->|];
          [|destruct (Z.eqb_spec c 107) as [->|];
            [|destruct (Z.eqb_spec c 108) as [->|];
              [|destruct (Z.eqb_spec c 106) as [->|]]]]]];
      splits; split; intros H; try discriminate H;
      try (right; split; reflexivity); try (split; reflexivity);
      repeat match goal with
             | H : _ \/ _ |- _ => destruct H
             | H : _ /\ _ |- _ => destruct H
             end; try discriminate; try reflexivity; try lia.
Qed.

(** ** The digits of the score *)

Lemma scoreLoop_returns (fuel : nat) :
  forall s c,
    0 <= s -> (Z.to_nat s < fuel)%nat ->
    exists calls,
      scoreLoop fuel s c = Some calls
      /\ calls <> []
      /\ digitsValue (map snd calls) = s
      /\ Forall (fun d => 0 <= d <= 9) (map snd calls)
      /\ (0 < s -> last (map snd calls) 0 <> 0)
      /\ (forall i call,
            nth_error calls i = Some call ->
            fst call = V (x c - 4 * Z.of_nat i) (y c)).
Proof.
  induction fuel as [|fuel IH]; intros s c Hs Hfuel; [lia|].
  cbn [scoreLoop]. cbv zeta.
  assert (Hq : 0 <= Z.quot s 10 /\ s = Z.rem s 10 + 10 * Z.quot s 10
               /\ 0 <= Z.rem s 10 <= 9) by euclid.
  destruct Hq as (Hq0 & Hqr & Hr).
  destruct (Z.eqb_spec (Z.quot s 10) 0) as [Hz|Hnz].
  - eexists. split; [reflexivity|]. simpl. splits.
    + discriminate.
    + lia.
    + repeat constructor; lia.
    + lia.
    + intros [|i] call H; simpl in H.
      * injection H as <-. simpl. destruct c as [cx cy]. unfold V. simpl.
        f_equal; lia.
      * now destruct i.
  - destruct (IH (Z.quot s 10) (plus c (V (-4) 0))) as
        (calls & Hcalls & Hne & Hval & Hdig & Hlast & Hpos); [lia|lia|].
    rewrite Hcalls. cbn [bind]. eexists. split; [reflexivity|].
    cbn [map snd digitsValue]. splits.
    + discriminate.
    + rewrite Hval. lia.
    + constructor; [lia|assumption].
    + intros _. destruct (map snd calls) as [|d ds] eqn:E.
      * destruct calls; [congruence|discriminate].
      * cbn [last]. apply Hlast. lia.
    + intros [|i] call H; simpl in H.
      * injection H as <-. simpl. destruct c as [cx cy]. unfold V. simpl.
        f_equal; lia.
      * rewrite (Hpos i call H). destruct c as [cx cy]. unfold V, plus.
        cbn [x y]. rewrite Nat2Z.inj_succ. f_equal; lia.
Qed.

(** X18. For a score that is not negative the loop of [DrawDynamic]
    that draws it returns, having drawn the decimal digits of the score
    and nothing else: at least one digit (one 0 for score 0), each from
    0 to 9, least significant first, standing for the score, the last
    one not 0 unless the score is 0; the [i]-th digit is drawn [4 i]
    columns to the left of [(2 width + 18, headerHeight + previewHeight
    + 7)], in the same row. *)
Theorem drawScore_draws_the_decimal_digits (width : nat)
        (headerHeight previewHeight : Z) (g : Game) :
  0 <= score g ->
  exists calls,
    drawScore width headerHeight previewHeight g = Some calls
    /\ calls <> []
    /\ digitsValue (map snd calls) = score g
    /\ Forall (fun d => 0 <= d <= 9) (map snd calls)
    /\ (0 < score g -> last (map snd calls) 0 <> 0)
    /\ (forall i call,
          nth_error calls i = Some call ->
          fst call = V (Z.of_nat width * 2 + 18 - 4 * Z.of_nat i)
                       (headerHeight + previewHeight + 7)).
Proof.
  intros Hs. unfold drawScore, scoreFuel.
  apply scoreLoop_returns; [assumption|lia].
Qed.

Lemma drawScore_of_1200 :
  exists calls,
    drawScore 10 1 6 (sampleGame 1200) = Some calls
    /\ calls <> []
    /\ digitsValue (map snd calls) = score (sampleGame 1200)
    /\ Forall (fun d => 0 <= d <= 9) (map snd calls)
    /\ (0 < score (sampleGame 1200) -> last (map snd calls) 0 <> 0)
    /\ (forall i call,
          nth_error calls i = Some call ->
          fst call = V (Z.of_nat 10 * 2 + 18 - 4 * Z.of_nat i) (1 + 6 + 7)).
Proof.
  apply (drawScore_draws_the_decimal_digits 10 1 6 (sampleGame 1200)).
  simpl. lia.
Defined.

Example score_1200_calls :
  drawScore 10 1 6 (sampleGame 1200)
  = Some [(V 38 14, 0); (V 34 14, 0); (V 30 14, 2); (V 26 14, 1)].
Proof. vm_compute. reflexivity. Qed.

(** ** The rotation a piece enters with, and what only a drop can do *)

Section GameFrames.

Variables width height : nat.
Variable initialX : Z.
Variable entropy : nat -> nat.

(** The outcomes of one iteration of the main loop. *)
Inductive stepped (g : Game) : Event.GameEvent -> Phase -> Prop :=
| stepped_same (e : Event.GameEvent) :
    e <> Event.Quit -> stepped g e (next g)
| stepped_quit : stepped g Event.Quit (Exited g)
| stepped_pause : stepped g Event.Pause (next (PauseToggle g))
| stepped_shift (e : Event.GameEvent) (b : Board) :
    paused g = false ->
    In e [Event.MoveLeft; Event.MoveRight; Event.MoveDown] ->
    cells b = cells (board g) -> currentPiece b = currentPiece (board g) ->
    stepped g e (next (setBoard g b))
| stepped_turn (p : Piece) (r : Z) :
    paused g = false ->
    nth_error (pieces g) (currentPiece (board g)) = Some p ->
    stepped g Event.Rotate
            (next (setPieces g (update (pieces g) (currentPiece (board g))
                                       (setRotation p r))))
| stepped_anchor (e : Event.GameEvent) (b : Board) (g' : Game) :
    paused g = false ->
    In e [Event.MoveDown; Event.QuickDrop] ->
    cells b = cells (board g) -> currentPiece b = currentPiece (board g) ->
    anchor width height initialX entropy (setBoard g b) = Some g' ->
    stepped g e (next g').

Lemma dispatch_stepped (g : Game) (e : Event.GameEvent) (ph : Phase) :
  gameOK g ->
  dispatch width height initialX entropy e g = Some ph ->
  stepped g e ph.
Proof.
  intros Hok Hstep. pose proof Hok as (Hcat & Hcur & Hnext).
  destruct (catalogOK_lookup _ _ Hcat Hcur) as (p & Hp & Hrot & Hchk).
  unfold dispatch in Hstep.
  destruct (paused g) eqn:Hpaused.
  - destruct e; injection Hstep as <-;
      try (apply stepped_same; discriminate); constructor.
  - assert (Hmove : forall d e0 g',
               In e0 [Event.MoveLeft; Event.MoveRight; Event.MoveDown] ->
               (d = Down -> e0 = Event.MoveDown) ->
               Move width height initialX entropy g d = Some g' ->
               stepped g e0 (next g')).
    { intros d e0 g' He0 Hd Hm.
      destruct (Move_cases width height initialX entropy g d p Hp Hrot)
        as (moved & _ & Hmv).
      rewrite Hm in Hmv. destruct moved.
      - injection Hmv as ->. now apply stepped_shift.
      - destruct d;
          try (injection Hmv as ->; apply stepped_same;
               destruct He0 as [<-|[<-|[<-|[]]]]; discriminate).
        rewrite (Hd eq_refl). symmetry in Hmv.
        apply (stepped_anchor g Event.MoveDown (board g) g'); simpl; auto;
          now rewrite ?setBoard_same. }
    destruct e; simpl in Hstep;
      try (injection Hstep as <-;
           first [apply stepped_same; discriminate | constructor]).
    + destruct (Move width height initialX entropy g Left) as [g'|] eqn:Hm;
        [|discriminate]. injection Hstep as <-.
      apply (Hmove Left); simpl; auto. discriminate.
    + destruct (Move width height initialX entropy g Right) as [g'|] eqn:Hm;
        [|discriminate]. injection Hstep as <-.
      apply (Hmove Right); simpl; auto. discriminate.
    + destruct (Move width height initialX entropy g Down) as [g'|] eqn:Hm;
        [|discriminate]. injection Hstep as <-.
      apply (Hmove Down); simpl; auto.
    + destruct (Rotate_cases width height g p Hp Hrot) as (hit & _ & Hr).
      rewrite Hr in Hstep. cbn [bind] in Hstep. injection Hstep as <-.
      destruct hit; [apply stepped_same; discriminate|].
      now apply stepped_turn.
    + destruct (QuickDrop_lands width height initialX entropy g Hok)
        as (k & g1 & Hg1 & Hq).
      rewrite Hq in Hstep.
      destruct (anchor width height initialX entropy g1) as [g'|] eqn:Ha;
        [|discriminate].
      cbn [bind] in Hstep. injection Hstep as <-. rewrite Hg1 in Ha.
      match type of Ha with
      | anchor _ _ _ _ (setBoard g ?B) = _ =>
          apply (stepped_anchor g Event.QuickDrop B g')
      end; simpl; auto.
Qed.

Lemma anchor_nextFresh (g g' : Game) :
  gameOK g -> anchor width height initialX entropy g = Some g' ->
  nextFresh g'.
Proof.
  intros Hok Ha.
  destruct (anchor_returns width height initialX entropy g Hok)
    as (b & g2 & p & _ & Ha2 & _ & _ & _ & _ & _ & _ & Hp & Hps & _).
  rewrite Ha in Ha2. injection Ha2 as <-.
  intros q Hq _. rewrite Hps in Hq.
  rewrite nth_error_update_eq in Hq
    by (apply nth_error_Some; congruence).
  now injection Hq as <-.
Qed.

Lemma stepped_nextFresh (g : Game) (e : Event.GameEvent) (ph : Phase) :
  gameOK g -> nextFresh g -> stepped g e ph -> nextFresh (gameOf ph).
Proof.
  intros Hok Hf Hs.
  assert (Hnextg : forall h, gameOf (next h) = h)
    by (intros h; apply next_phaseOK).
  destruct Hs as [e He| | |e b Hp He Hc Hk|p r Hp Hnth|e b g' Hp He Hc Hk Ha];
    rewrite ?Hnextg; simpl; auto.
  - destruct (PauseToggle_keeps g) as (Hb & Hn & Hps & _).
    unfold nextFresh. now rewrite Hb, Hn, Hps.
  - unfold nextFresh; fields. now rewrite Hk.
  - unfold nextFresh; fields. intros q Hq Hne.
    rewrite nth_error_update_neq in Hq by congruence. auto.
  - apply (anchor_nextFresh (setBoard g b) g'); auto.
    unfold gameOK; fields. rewrite Hk. exact Hok.
Qed.

Lemma run_nextFresh (es : list Event.GameEvent) :
  forall ph ph',
    gameOK (gameOf ph) -> phaseOK ph -> nextFresh (gameOf ph) ->
    run width height initialX entropy ph es = Some ph' ->
    nextFresh (gameOf ph').
Proof.
  induction es as [|e es IH]; intros ph ph' Hok Hph Hf Hrun; simpl in Hrun.
  - now injection Hrun as <-.
  - destruct (step_returns width height initialX entropy ph e Hok Hph)
      as (ph1 & Hstep & Hok1 & Hph1 & _).
    rewrite Hstep in Hrun. cbn [bind] in Hrun.
    apply (IH ph1 ph' Hok1 Hph1); auto.
    destruct ph as [g|g|g]; simpl in Hstep.
    + apply (stepped_nextFresh g e ph1); auto.
      now apply dispatch_stepped.
    + destruct e; injection Hstep as <-; assumption.
    + injection Hstep as <-; assumption.
Qed.

(** X19. The rotation index a piece enters play with.  Over every play
    the lookahead piece is at rotation 0 unless it is the very catalog
    slot of the falling piece; and the piece that an [anchor] brings
    into play has the rotation index its slot had, or 0 when the new
    lookahead piece is that slot again.  So a piece enters rotated only
    when it is of the kind of the piece just anchored and the next draw
    is of another kind. *)
Theorem entering_rotation (es : list Event.GameEvent) :
  (exists ph,
     play width height initialX entropy es = Some ph
     /\ forall q,
          nth_error (pieces (gameOf ph)) (nextPiece (gameOf ph)) = Some q ->
          nextPiece (gameOf ph) <> currentPiece (board (gameOf ph)) ->
          currentRotation q = 0)
  /\ (forall g,
        gameOK g ->
        exists g' q r,
          anchor width height initialX entropy g = Some g'
          /\ nth_error (pieces g) (nextPiece g) = Some q
          /\ nth_error (pieces g') (currentPiece (board g')) = Some r
          /\ currentRotation r
             = (if (nextPiece g' =? nextPiece g)%nat then 0
                else currentRotation q)).
Proof.
  split.
  - destruct (NewGame_returns width height initialX entropy)
      as (g0 & Hg0 & Hok & Hps & _ & _ & _ & _ & _ & Hov & _).
    destruct (run_returns width height initialX entropy es (Running g0)
                          Hok Hov) as (ph & Hrun & _).
    exists ph. unfold play. rewrite Hg0. cbn [bind].
    split; [assumption|].
    apply (run_nextFresh es (Running g0) ph); auto.
    intros q Hq _. simpl in Hq. rewrite Hps in Hq.
    assert (Hall : Forall (fun c => currentRotation c = 0) tetrisPieces)
      by (repeat constructor).
    rewrite Forall_forall in Hall. apply Hall.
    eapply nth_error_In; eauto.
  - intros g Hok.
    destruct (anchor_returns width height initialX entropy g Hok)
      as (b & g' & p & _ & Ha & _ & _ & _ & Hcur & _ & _ & Hp & Hps & _).
    destruct Hok as (Hcat & _ & Hnext).
    destruct (catalogOK_lookup _ _ Hcat Hnext) as (q & Hq & _).
    exists g', q,
      (if (nextPiece g' =? nextPiece g)%nat then setRotation p 0 else q).
    splits; auto; rewrite ?Hcur, ?Hps;
      destruct (Nat.eqb_spec (nextPiece g') (nextPiece g)) as [Heq|Hne];
      try reflexivity.
    + rewrite <- Heq. apply nth_error_update_eq.
      apply nth_error_Some. congruence.
    + now rewrite nth_error_update_neq.
Qed.


End GameFrames.

